(** * Session search of the history viewer: index, match enumeration, cursor

    A shallow embedding of
    - [src/utils/searchIndex.ts]: the text extractors and the
      [MessageSearchIndex] class (build / search / clear), and
    - the session-search slice of [src/store/useAppStore.ts]
      ([setSessionSearchQuery], [goToNextMatch], [goToPrevMatch],
      [goToMatchIndex], [clearSessionSearch], [setSearchFilterType]),
    followed by the properties the specification states about them. *)

From stdpp Require Import base option list sorting gmap strings.
From Stdlib Require Import ZArith Lia Ascii.

Set Warnings "-register-all".

(* ================================================================= *)
(** ** JavaScript strings *)

(** A JavaScript string is a sequence of UTF-16 code units. *)
Abbreviation jsstring := (list N).

(** Source literals are ASCII; [js "tool_use"] is the code-unit sequence. *)
Fixpoint js (s : string) : jsstring :=
  match s with
  | EmptyString => []
  | String c s' => Ascii.N_of_ascii c :: js s'
  end.

(** ECMAScript [WhiteSpace] and [LineTerminator] code points, the ones
    [String.prototype.trim] strips: TAB, LF, VT, FF, CR, SP, NBSP, the
    Unicode space separators, LS, PS and the byte order mark. *)
Definition isWhiteSpace (c : N) : bool :=
  (((9 <=? c) && (c <=? 13)) || (c =? 32) || (c =? 160) || (c =? 5760)
   || ((8192 <=? c) && (c <=? 8202)) || (c =? 8232) || (c =? 8233)
   || (c =? 8239) || (c =? 8287) || (c =? 12288) || (c =? 65279))%N.

Fixpoint trimStart (s : jsstring) : jsstring :=
  match s with
  | [] => []
  | c :: s' => if isWhiteSpace c then trimStart s' else s
  end.

Definition trimEnd (s : jsstring) : jsstring := reverse (trimStart (reverse s)).

(** [String.prototype.trim] *)
Definition trim (s : jsstring) : jsstring := trimEnd (trimStart s).

(** Truthiness of a string: the empty string is the only falsy one. *)
Definition truthyString (s : jsstring) : bool :=
  match s with [] => false | _ => true end.

(** [Array.prototype.join] on an array of strings. *)
Fixpoint join (sep : jsstring) (parts : list jsstring) : jsstring :=
  match parts with
  | [] => []
  | [p] => p
  | p :: rest => p ++ sep ++ join sep rest
  end.

(** [q] is a prefix of [s], code unit by code unit. *)
Fixpoint startsWith (s q : jsstring) : bool :=
  match q, s with
  | [], _ => true
  | _ :: _, [] => false
  | a :: q', b :: s' => (a =? b)%N && startsWith s' q'
  end.

(** Scan of the suffix [s], which starts at offset [k] of the whole string. *)
Fixpoint indexOfFrom (s q : jsstring) (k : nat) : option nat :=
  if startsWith s q then Some k
  else match s with
       | [] => None
       | _ :: s' => indexOfFrom s' q (S k)
       end.

(** [String.prototype.indexOf(q, position)]: the start position is clamped
    to the length, the answer is the least offset at or after it where [q]
    occurs; [None] stands for the result [-1]. *)
Definition indexOf (s q : jsstring) (position : nat) : option nat :=
  let start := position `min` length s in
  indexOfFrom (drop start s) q start.

(* ================================================================= *)
(** ** Messages *)

(** The dynamically typed payloads of a message ([content], [toolUse],
    [toolUseResult]) are inspected with [typeof], [Array.isArray] and [in],
    so they are kept as JavaScript values. *)
Inductive value : Type :=
  | VUndefined
  | VNull
  | VBool (b : bool)
  | VNumber (n : Z)
  | VString (s : jsstring)
  | VArray (items : list value)
  | VObject (props : gmap string value).

Record ClaudeMessage : Type := {
  uuid : jsstring;
  content : value;
  toolUse : value;
  toolUseResult : value;
}.

(** [if (v)]: [undefined], [null], [false], [0] and [""] are falsy. *)
Definition truthy (v : value) : bool :=
  match v with
  | VUndefined | VNull => false
  | VBool b => b
  | VNumber n => negb (n =? 0)%Z
  | VString s => truthyString s
  | VArray _ | VObject _ => true
  end.

(** [hasStringProperty(obj, key)], returning the string when it holds. *)
Definition stringProperty (obj : gmap string value) (key : string) : option jsstring :=
  match obj !! key with
  | Some (VString s) => Some s
  | _ => None
  end.

(** [parts.push(x)] *)
Definition push {A} (parts : list A) (x : A) : list A := parts ++ [x].

(** [if (hasStringProperty(obj, key)) parts.push(obj[key])] *)
Definition pushStringProperty (parts : list jsstring)
    (obj : gmap string value) (key : string) : list jsstring :=
  match stringProperty obj key with
  | Some s => push parts s
  | None => parts
  end.

(** [extractSearchableText]: the statements of the [try] block in order.
    On these values no property access can throw, so the [catch] is never
    entered. *)
Definition extractSearchableText (message : ClaudeMessage) : jsstring :=
  let parts : list jsstring := [] in
  let parts :=
    if truthy (content message) then
      match content message with
      | VString s => push parts s
      | VArray items =>
          foldl (fun parts item =>
                   match item with
                   | VString s => push parts s
                   | VObject o =>
                       let parts := pushStringProperty parts o "text" in
                       pushStringProperty parts o "thinking"
                   | _ => parts
                   end) parts items
      | _ => parts
      end
    else parts in
  let parts :=
    match toolUse message with
    | VObject o => pushStringProperty parts o "name"
    | _ => parts
    end in
  let parts :=
    if truthy (toolUseResult message) then
      match toolUseResult message with
      | VString s => push parts s
      | VObject o =>
          let parts := pushStringProperty parts o "stdout" in
          let parts := pushStringProperty parts o "stderr" in
          pushStringProperty parts o "content"
      | _ => parts
      end
    else parts in
  join (js " ") parts.

(** [item.type === tag] *)
Definition hasType (o : gmap string value) (tag : string) : bool :=
  match o !! "type" with
  | Some (VString s) => bool_decide (s = js tag)
  | _ => false
  end.

(** [extractToolIds] *)
Definition extractToolIds (message : ClaudeMessage) : jsstring :=
  let ids : list jsstring := [] in
  let ids :=
    match content message with
    | VArray items =>
        foldl (fun ids item =>
                 match item with
                 | VObject o =>
                     let ids :=
                       if hasType o "tool_use" then pushStringProperty ids o "id"
                       else ids in
                     if hasType o "tool_result"
                     then pushStringProperty ids o "tool_use_id"
                     else ids
                 | _ => ids
                 end) ids items
    | _ => ids
    end in
  let ids :=
    match toolUse message with
    | VObject o => pushStringProperty ids o "id"
    | _ => ids
    end in
  join (js " ") ids.

(* ================================================================= *)
(** ** Outcomes of a call *)

(** A call returns, throws, or never returns. *)
Inductive outcome (A : Type) : Type :=
  | Returns (a : A)
  | Throws
  | Diverges.
Arguments Returns {A} a.
Arguments Throws {A}.
Arguments Diverges {A}.

#[global] Instance outcome_ret : MRet outcome := fun A a => Returns a.
#[global] Instance outcome_bind : MBind outcome := fun A B f c =>
  match c with
  | Returns a => f a
  | Throws => Throws
  | Diverges => Diverges
  end.

(** [xs.forEach(x => ...)] with a body that updates the state [s]. *)
Fixpoint forEachM {A St : Type} (body : St -> A -> outcome St) (xs : list A)
    (s : St) : outcome St :=
  match xs with
  | [] => Returns s
  | x :: xs' => s' ← body s x; forEachM body xs' s'
  end.

(** [xs.forEach((x, index) => ...)], [i] being the index of the head. *)
Fixpoint forEachIndexed {A St : Type} (body : St -> A -> nat -> St)
    (xs : list A) (i : nat) (s : St) : St :=
  match xs with
  | [] => s
  | x :: xs' => forEachIndexed body xs' (S i) (body s x i)
  end.

(** [set.add(x)] on a [Set], kept in insertion order as [forEach] visits it. *)
Definition Set_add (set : list jsstring) (x : jsstring) : list jsstring :=
  if decide (x ∈ set) then set else push set x.

(* ================================================================= *)
(** ** The index and the host it runs on *)

Inductive SearchFilterType : Type := Content | ToolId.

Record SearchDocument : Type := {
  doc_uuid : jsstring;
  doc_messageIndex : nat;
  doc_text : jsstring;
}.

Record EnrichedResult : Type := {
  id : jsstring;
  doc : option SearchDocument;
}.

(** An element of a field result: [string | EnrichedResult]. *)
Inductive ResultItem : Type :=
  | ItemString (s : jsstring)
  | ItemEnriched (r : EnrichedResult).

Record FieldResult : Type := {
  field : jsstring;
  result : option (list ResultItem);
}.

(** A FlexSearch document index is known by the documents added to it. *)
Abbreviation FlexSearchDocumentIndex := (list SearchDocument).

Definition createFlexSearchIndex : FlexSearchDocumentIndex := [].

(** What the code takes from outside the repository:
    [String.prototype.toLowerCase] of the JavaScript engine, and the lookup
    [index.search(query, {limit, enrich})] of the FlexSearch library, which
    answers with field results or throws ([None]). *)
Class Host : Type := {
  toLowerCase : jsstring -> jsstring;
  indexSearch :
    FlexSearchDocumentIndex -> jsstring -> nat -> bool -> option (list FieldResult);
}.

(** Lower-casing ASCII letters, the action of [toLowerCase] on ASCII text. *)
Definition asciiLower (c : N) : N :=
  if ((65 <=? c) && (c <=? 90))%N then (c + 32)%N else c.

(** The two facts about [toLowerCase] the properties below rely on: it
    never produces the empty string from a non-empty one, and on ASCII
    text it lower-cases the letters [A]-[Z] and nothing else. *)
Class HostLaws (H : Host) : Prop := {
  toLowerCase_nonempty : forall s, toLowerCase s = [] -> s = [];
  toLowerCase_ascii :
    forall s, Forall (fun c => (c < 128)%N) s -> toLowerCase s = asciiLower <$> s;
}.

Record SearchMatch : Type := {
  messageUuid : jsstring;
  messageIndex : Z;
  matchIndex : Z;
  matchCount : Z;
}.

Record MessageSearchIndex : Type := {
  contentIndex : FlexSearchDocumentIndex;
  toolIdIndex : FlexSearchDocumentIndex;
  messageMap : gmap jsstring nat;
  messages : list ClaudeMessage;
  isBuilt : bool;
}.

(** The instance as the constructor and the field initialisers leave it. *)
Definition newMessageSearchIndex : MessageSearchIndex :=
  {| contentIndex := createFlexSearchIndex;
     toolIdIndex := createFlexSearchIndex;
     messageMap := ∅;
     messages := [];
     isBuilt := false |}.

(** [clear()] *)
Definition clear (this : MessageSearchIndex) : MessageSearchIndex :=
  {| contentIndex := createFlexSearchIndex;
     toolIdIndex := createFlexSearchIndex;
     messageMap := ∅;
     messages := [];
     isBuilt := false |}.

(** [extractUuidFromResult] *)
Definition extractUuidFromResult (item : ResultItem) : jsstring :=
  match item with
  | ItemString s => s
  | ItemEnriched r => id r
  end.

(** The comparator handed to [allMatches.sort]. *)
Definition compareMatches (a b : SearchMatch) : Z :=
  if negb (messageIndex a =? messageIndex b)%Z
  then messageIndex b - messageIndex a
  else matchIndex b - matchIndex a.

(** [Array.prototype.sort(compareFn)]. The sort is stable, so with a
    consistent comparator its result does not depend on the algorithm;
    it is written here as a stable insertion sort. *)
Fixpoint sortInsert {A : Type} (compareFn : A -> A -> Z) (x : A) (l : list A)
  : list A :=
  match l with
  | [] => [x]
  | y :: l' =>
      if (compareFn x y <=? 0)%Z then x :: y :: l'
      else y :: sortInsert compareFn x l'
  end.

Fixpoint Array_sort {A : Type} (compareFn : A -> A -> Z) (l : list A) : list A :=
  match l with
  | [] => []
  | x :: l' => sortInsert compareFn x (Array_sort compareFn l')
  end.

Section Engine.
Context `{H : Host}.

(** One message of [build]'s [forEach]. *)
Definition buildMessage (this : MessageSearchIndex) (message : ClaudeMessage)
    (index : nat) : MessageSearchIndex :=
  let text := extractSearchableText message in
  let contentIndex' :=
    if truthyString (trim text)
    then push (contentIndex this)
           {| doc_uuid := uuid message; doc_messageIndex := index;
              doc_text := toLowerCase text |}
    else contentIndex this in
  let toolIds := extractToolIds message in
  let toolIdIndex' :=
    if truthyString (trim toolIds)
    then push (toolIdIndex this)
           {| doc_uuid := uuid message; doc_messageIndex := index;
              doc_text := toLowerCase toolIds |}
    else toolIdIndex this in
  {| contentIndex := contentIndex';
     toolIdIndex := toolIdIndex';
     messageMap := <[uuid message := index]> (messageMap this);
     messages := messages this;
     isBuilt := isBuilt this |}.

(** [build(messages)] *)
Definition build (this : MessageSearchIndex) (msgs : list ClaudeMessage)
  : MessageSearchIndex :=
  let this := clear this in
  let this :=
    {| contentIndex := contentIndex this; toolIdIndex := toolIdIndex this;
       messageMap := messageMap this; messages := msgs;
       isBuilt := isBuilt this |} in
  let this := forEachIndexed buildMessage msgs 0 this in
  {| contentIndex := contentIndex this; toolIdIndex := toolIdIndex this;
     messageMap := messageMap this; messages := messages this;
     isBuilt := true |}.

(** The [while] loop of [findAllMatchesInText]; [fuel] bounds the number
    of evaluations of its condition. *)
Fixpoint countLoop (fuel : nat) (lowerText lowerQuery : jsstring)
    (count pos : nat) : outcome nat :=
  match fuel with
  | O => Diverges
  | S fuel' =>
      match indexOf lowerText lowerQuery pos with
      | Some pos' =>
          countLoop fuel' lowerText lowerQuery (S count) (pos' + length lowerQuery)
      | None => Returns count
      end
  end.

(** [findAllMatchesInText(text, query)]. Every round but the last moves
    [pos] forward inside the text when the query is not empty, so
    [length lowerText + 1] rounds are all a terminating run can take. *)
Definition findAllMatchesInText (text query : jsstring) : outcome nat :=
  let lowerText := toLowerCase text in
  let lowerQuery := toLowerCase query in
  countLoop (S (length lowerText)) lowerText lowerQuery 0 0.

(** The body of [matchedUuids.forEach] in [search]. *)
Definition collectMatches (this : MessageSearchIndex) (lowerQuery : jsstring)
    (filterType : SearchFilterType) (allMatches : list SearchMatch)
    (uuid : jsstring) : outcome (list SearchMatch) :=
  match messageMap this !! uuid with
  | None => Returns allMatches
  | Some messageIndex =>
      match messages this !! messageIndex with
      | None => Returns allMatches
      | Some message =>
          let messageText :=
            match filterType with
            | ToolId => extractToolIds message
            | Content => extractSearchableText message
            end in
          matchCount ← findAllMatchesInText messageText lowerQuery;
          Returns
            (foldl (fun allMatches i =>
                      push allMatches
                        {| messageUuid := uuid;
                           messageIndex := Z.of_nat messageIndex;
                           matchIndex := Z.of_nat i;
                           matchCount := Z.of_nat matchCount |})
                   allMatches (seq 0 matchCount))
      end
  end.

(** [search(query, filterType)] *)
Definition search (this : MessageSearchIndex) (query : jsstring)
    (filterType : SearchFilterType) : outcome (list SearchMatch) :=
  if negb (isBuilt this) || negb (truthyString (trim query)) then Returns []
  else
    let lowerQuery := toLowerCase query in
    let index :=
      match filterType with
      | ToolId => toolIdIndex this
      | Content => contentIndex this
      end in
    match indexSearch index lowerQuery 1000 true with
    | None => Throws
    | Some results =>
        let matchedUuids :=
          foldl (fun matchedUuids fieldResult =>
                   match result fieldResult with
                   | Some items =>
                       foldl (fun matchedUuids item =>
                                Set_add matchedUuids (extractUuidFromResult item))
                             matchedUuids items
                   | None => matchedUuids
                   end) [] results in
        allMatches ← forEachM (collectMatches this lowerQuery filterType)
                       matchedUuids [];
        Returns (Array_sort compareMatches allMatches)
    end.
End Engine.

(* ================================================================= *)
(** ** The session-search slice of the store *)

Record SearchState : Type := {
  query : jsstring;
  matches : list SearchMatch;
  currentMatchIndex : Z;
  isSearching : bool;
  filterType : SearchFilterType;
  results : list ClaudeMessage;
}.

(** The part of [AppStore] the search actions read or write. *)
Record AppStore : Type := {
  storeMessages : list ClaudeMessage;
  sessionSearch : SearchState;
}.

(** [set({ sessionSearch: s })] *)
Definition setSessionSearch (state : AppStore) (s : SearchState) : AppStore :=
  {| storeMessages := storeMessages state; sessionSearch := s |}.

(** [{ ...sessionSearch, currentMatchIndex: i }] *)
Definition withCurrentMatchIndex (s : SearchState) (i : Z) : SearchState :=
  {| query := query s; matches := matches s; currentMatchIndex := i;
     isSearching := isSearching s; filterType := filterType s;
     results := results s |}.

Definition createEmptySearchState (filterType : SearchFilterType) : SearchState :=
  {| query := []; matches := []; currentMatchIndex := -1; isSearching := false;
     filterType := filterType; results := [] |}.

(** [sessionSearch] in the initial state of the store. *)
Definition initialSessionSearch : SearchState :=
  {| query := []; matches := []; currentMatchIndex := -1; isSearching := false;
     filterType := Content; results := [] |}.

(** [arr[i]] for a number [i]: [undefined] outside the array. *)
Definition at_index {A : Type} (arr : list A) (i : Z) : option A :=
  if (i <? 0)%Z then None else arr !! Z.to_nat i.

Section Store.
Context `{H : Host}.

(** [searchMessages], the export the store imports as
    [searchMessagesFromIndex]; the index is the module's singleton. *)
Definition searchMessages (messageSearchIndex : MessageSearchIndex)
    (query : jsstring) (filterType : SearchFilterType)
  : outcome (list SearchMatch) :=
  search messageSearchIndex query filterType.

(** [setSessionSearchQuery(query)], with the three [set] calls of the
    non-empty path applied one after the other. *)
Definition setSessionSearchQuery (messageSearchIndex : MessageSearchIndex)
    (state : AppStore) (query : jsstring) : outcome AppStore :=
  let messages := storeMessages state in
  let sessionSearch0 := sessionSearch state in
  let filterType0 := filterType sessionSearch0 in
  if negb (truthyString (trim query)) then
    Returns (setSessionSearch state
               (createEmptySearchState (filterType (sessionSearch state))))
  else
    let state :=
      setSessionSearch state
        {| query := query;
           matches := matches (sessionSearch state);
           currentMatchIndex := currentMatchIndex (sessionSearch state);
           isSearching := true;
           filterType := filterType (sessionSearch state);
           results := results (sessionSearch state) |} in
    match searchMessages messageSearchIndex query filterType0 with
    | Returns searchResults =>
        let matches' :=
          (fun result =>
             {| messageUuid := messageUuid result;
                messageIndex := messageIndex result;
                matchIndex := matchIndex result;
                matchCount := matchCount result |})
          <$> filter (fun result =>
                        (0 <= messageIndex result
                         ∧ messageIndex result < Z.of_nat (length messages))%Z)
                     searchResults in
        Returns (setSessionSearch state
                   {| query := query;
                      matches := matches';
                      currentMatchIndex :=
                        if (0 <? Z.of_nat (length matches'))%Z then 0 else -1;
                      isSearching := false;
                      filterType := filterType (sessionSearch state);
                      results :=
                        omap (fun m => at_index messages (messageIndex m))
                             matches' |})
    | Throws =>
        Returns (setSessionSearch state
                   {| query := query;
                      matches := [];
                      currentMatchIndex := -1;
                      isSearching := false;
                      filterType := filterType (sessionSearch state);
                      results := [] |})
    | Diverges => Diverges
    end.
End Store.

(** [goToNextMatch()]; [%] on numbers keeps the sign of the dividend. *)
Definition goToNextMatch (state : AppStore) : AppStore :=
  let sessionSearch := sessionSearch state in
  if (Z.of_nat (length (matches sessionSearch)) =? 0)%Z then state
  else
    let nextIndex :=
      Z.rem (currentMatchIndex sessionSearch + 1)
            (Z.of_nat (length (matches sessionSearch))) in
    setSessionSearch state (withCurrentMatchIndex sessionSearch nextIndex).

(** [goToPrevMatch()] *)
Definition goToPrevMatch (state : AppStore) : AppStore :=
  let sessionSearch := sessionSearch state in
  if (Z.of_nat (length (matches sessionSearch)) =? 0)%Z then state
  else
    let totalMatches := Z.of_nat (length (matches sessionSearch)) in
    let prevIndex :=
      if (currentMatchIndex sessionSearch <=? 0)%Z
      then (totalMatches - 1)%Z
      else (currentMatchIndex sessionSearch - 1)%Z in
    setSessionSearch state (withCurrentMatchIndex sessionSearch prevIndex).

(** [goToMatchIndex(index)] called with an integer [index]; the rejected
    call only writes a console warning. The source takes any number:
    [goToMatchIndexNumber] below is the call on every number, and is this
    one on the integers. *)
Definition goToMatchIndex (state : AppStore) (index : Z) : AppStore :=
  let sessionSearch := sessionSearch state in
  let matches := matches sessionSearch in
  if ((index <? 0) || (Z.of_nat (length matches) <=? index))%Z then state
  else setSessionSearch state (withCurrentMatchIndex sessionSearch index).

(** [clearSessionSearch()] *)
Definition clearSessionSearch (state : AppStore) : AppStore :=
  setSessionSearch state
    (createEmptySearchState (filterType (sessionSearch state))).

(** [setSearchFilterType(filterType)] *)
Definition setSearchFilterType (state : AppStore) (filterType : SearchFilterType)
  : AppStore :=
  setSessionSearch state (createEmptySearchState filterType).

(** The actions a caller can take on the search state; [JumpTo i] is
    [goToMatchIndex(i)] called with an integer [i]. *)
Inductive action : Type :=
  | SetQuery (q : jsstring)
  | Next
  | Prev
  | JumpTo (i : Z)
  | SetFilterType (f : SearchFilterType)
  | Clear.

Section Run.
Context `{H : Host}.

(** One action, run against the index as it is at that moment. *)
Definition run (messageSearchIndex : MessageSearchIndex) (state : AppStore)
    (a : action) : outcome AppStore :=
  match a with
  | SetQuery q => setSessionSearchQuery messageSearchIndex state q
  | Next => Returns (goToNextMatch state)
  | Prev => Returns (goToPrevMatch state)
  | JumpTo i => Returns (goToMatchIndex state i)
  | SetFilterType f => Returns (setSearchFilterType state f)
  | Clear => Returns (clearSessionSearch state)
  end.

(** States of the store that a session can be in as long as
    [goToMatchIndex] is handed integers: the initial state, a new message
    list being loaded, and any action on a reachable state. The cursor of
    such a state is an integer; [goToMatchIndexNumber] gives what a call
    with any other number makes of it. *)
Inductive reachable : AppStore -> Prop :=
  | reachable_init :
      reachable {| storeMessages := []; sessionSearch := initialSessionSearch |}
  | reachable_load state msgs :
      reachable state ->
      reachable {| storeMessages := msgs; sessionSearch := sessionSearch state |}
  | reachable_run state index a state' :
      reachable state ->
      run index state a = Returns state' ->
      reachable state'.
End Run.

(* ================================================================= *)
(** ** Two concrete hosts, used to evaluate the model *)

(** The query occurs somewhere in the text. *)
Definition includes (s q : jsstring) : bool :=
  match indexOf s q 0 with Some _ => true | None => false end.

(** A lookup that answers with the documents whose indexed text contains
    the query, at most [limit] of them, in one field result. *)
Definition containsLookup (index : FlexSearchDocumentIndex) (q : jsstring)
    (limit : nat) (enrich : bool) : option (list FieldResult) :=
  let hits := List.filter (fun d => includes (doc_text d) q) index in
  let item d :=
    if enrich then ItemEnriched {| id := doc_uuid d; doc := Some d |}
    else ItemString (doc_uuid d) in
  Some [ {| field := js "text"; result := Some (item <$> take limit hits) |} ].

Definition asciiHost : Host :=
  {| toLowerCase := fmap asciiLower; indexSearch := containsLookup |}.

(** A host whose index lookup always throws. *)
Definition throwingHost : Host :=
  {| toLowerCase := fmap asciiLower;
     indexSearch := fun _ _ _ _ => None |}.

(** A message with string content and nothing else. *)
Definition textMessage (u c : string) : ClaudeMessage :=
  {| uuid := js u; content := VString (js c);
     toolUse := VUndefined; toolUseResult := VUndefined |}.

(** The snapshot of the end-to-end scenario. *)
Definition helloSnapshot : list ClaudeMessage :=
  [ textMessage "m0" "hello world"; textMessage "m1" "say hello";
    textMessage "m2" "goodbye" ].

(* ================================================================= *)
(** ** The specification's wording, as definitions *)

(** *** Occurrence counting *)

(** The query occurs in the text at offset [p]. *)
Definition occursAt (t q : jsstring) (p : nat) : Prop := q `prefix_of` drop p t.

(** The offsets a left-to-right scan from cursor [c] visits: each one is
    the first occurrence at or after the cursor, and the cursor then moves
    past it by the length of the query. *)
Inductive scanFrom (t q : jsstring) : nat -> list nat -> Prop :=
  | scan_end c :
      (forall p, c <= p -> ¬ occursAt t q p) ->
      scanFrom t q c []
  | scan_hit c p ps :
      c <= p ->
      occursAt t q p ->
      (forall p', c <= p' -> p' < p -> ¬ occursAt t q p') ->
      scanFrom t q (p + length q) ps ->
      scanFrom t q c (p :: ps).

(** Offsets of occurrences at or after [c] that do not overlap one
    another, in increasing order. *)
Fixpoint nonOverlapping (t q : jsstring) (c : nat) (ps : list nat) : Prop :=
  match ps with
  | [] => True
  | p :: ps' => c <= p ∧ occursAt t q p ∧ nonOverlapping t q (p + length q) ps'
  end.

(** *** Text extraction *)

Definition optionText (o : option jsstring) : list jsstring :=
  match o with Some s => [s] | None => [] end.

(** The [toolUse.name] contribution. *)
Definition toolUseNameTexts (message : ClaudeMessage) : list jsstring :=
  match toolUse message with
  | VObject o => optionText (stringProperty o "name")
  | _ => []
  end.

(** The fields of a record-shaped [toolUseResult], in the order read. *)
Definition resultRecordTexts (o : gmap string value) : list jsstring :=
  optionText (stringProperty o "stdout")
  ++ optionText (stringProperty o "stderr")
  ++ optionText (stringProperty o "content").

(** An element of the content sequence as the claim reads it: the element
    itself if a string, else its [text], else its [thinking]. *)
Definition elementTextClaimed (item : value) : list jsstring :=
  match item with
  | VString s => [s]
  | VObject o =>
      match stringProperty o "text" with
      | Some t => [t]
      | None => optionText (stringProperty o "thinking")
      end
  | _ => []
  end.

Definition extractContentTextClaimed (message : ClaudeMessage) : jsstring :=
  let contentTexts :=
    match content message with
    | VString s => [s]
    | VArray items => items ≫= elementTextClaimed
    | _ => []
    end in
  let resultTexts :=
    match toolUseResult message with
    | VString s => [s]
    | VObject o => resultRecordTexts o
    | _ => []
    end in
  join (js " ") (contentTexts ++ toolUseNameTexts message ++ resultTexts).

(** An element of the content sequence as amended: the element itself if
    a string; for a record its [text] and then also its [thinking], each
    when it is a string. *)
Definition elementTexts (item : value) : list jsstring :=
  match item with
  | VString s => [s]
  | VObject o =>
      optionText (stringProperty o "text")
      ++ optionText (stringProperty o "thinking")
  | _ => []
  end.

(** A string that is not empty, as a one-element list. *)
Definition nonEmptyText (s : jsstring) : list jsstring :=
  match s with [] => [] | _ => [s] end.

Definition extractContentTextAmended (message : ClaudeMessage) : jsstring :=
  let contentTexts :=
    match content message with
    | VString s => nonEmptyText s
    | VArray items => items ≫= elementTexts
    | _ => []
    end in
  let resultTexts :=
    match toolUseResult message with
    | VString s => nonEmptyText s
    | VObject o => resultRecordTexts o
    | _ => []
    end in
  join (js " ") (contentTexts ++ toolUseNameTexts message ++ resultTexts).

(** *** Blank queries and the life of the index *)

(** The query is empty or consists only of whitespace. *)
Definition isBlank (q : jsstring) : bool := forallb isWhiteSpace q.

(** The calls that change the index. *)
Inductive indexCall : Type :=
  | CallBuild (msgs : list ClaudeMessage)
  | CallClear.

Definition isCallClear (c : indexCall) : bool :=
  match c with CallClear => true | CallBuild _ => false end.

Section IndexCalls.
Context `{H : Host}.

Definition applyCall (this : MessageSearchIndex) (c : indexCall)
  : MessageSearchIndex :=
  match c with
  | CallBuild msgs => build this msgs
  | CallClear => clear this
  end.

(** The index after a sequence of calls on a fresh instance. *)
Definition afterCalls (calls : list indexCall) : MessageSearchIndex :=
  foldl applyCall newMessageSearchIndex calls.
End IndexCalls.

(** The index [search] consults for a field. *)
Definition indexFor (this : MessageSearchIndex) (f : SearchFilterType)
  : FlexSearchDocumentIndex :=
  match f with
  | ToolId => toolIdIndex this
  | Content => contentIndex this
  end.

(** What a comparator tells the sort: [x] may stand before [y]. *)
Definition sortsBefore {A : Type} (compareFn : A -> A -> Z) (x y : A) : Prop :=
  (compareFn x y <= 0)%Z.

(** The order [compareMatches] sorts by. *)
Definition mayPrecede : SearchMatch -> SearchMatch -> Prop :=
  sortsBefore compareMatches.

(** The index built from the scenario's snapshot on the ASCII host. *)
Definition helloIndex : MessageSearchIndex :=
  build (H := asciiHost) newMessageSearchIndex helloSnapshot.

(** The store once the scenario's snapshot is loaded, and what
    [setSessionSearchQuery("hello")] is expected to leave in it. *)
Definition helloStore : AppStore :=
  {| storeMessages := helloSnapshot; sessionSearch := initialSessionSearch |}.

Definition helloMatches : list SearchMatch :=
  [ {| messageUuid := js "m1"; messageIndex := 1; matchIndex := 0; matchCount := 1 |};
    {| messageUuid := js "m0"; messageIndex := 0; matchIndex := 0; matchCount := 1 |} ].

Definition helloFound : AppStore :=
  {| storeMessages := helloSnapshot;
     sessionSearch :=
       {| query := js "hello"; matches := helloMatches; currentMatchIndex := 0;
          isSearching := false; filterType := Content;
          results := [ textMessage "m1" "say hello"; textMessage "m0" "hello world" ] |} |}.

(** A snapshot in which one message holds the query twice, the index
    built from it, and the matches expected for ["hello"]. *)
Definition echoSnapshot : list ClaudeMessage :=
  [ textMessage "m0" "Hello, hello"; textMessage "m1" "oh hello" ].

Definition echoIndex : MessageSearchIndex :=
  build (H := asciiHost) newMessageSearchIndex echoSnapshot.

Definition echoMatches : list SearchMatch :=
  [ {| messageUuid := js "m1"; messageIndex := 1; matchIndex := 0; matchCount := 1 |};
    {| messageUuid := js "m0"; messageIndex := 0; matchIndex := 1; matchCount := 2 |};
    {| messageUuid := js "m0"; messageIndex := 0; matchIndex := 0; matchCount := 2 |} ].

(** The filter [setSessionSearchQuery] applies to what the index returns. *)
Definition indexInRange (messages : list ClaudeMessage) (m : SearchMatch) : Prop :=
  (0 <= messageIndex m ∧ messageIndex m < Z.of_nat (length messages))%Z.

#[global] Instance indexInRange_dec messages m : Decision (indexInRange messages m).
Proof. unfold indexInRange. apply _. Defined.

(** *** Ordering and cursor *)

(** The ordering law on a match list, by positions. *)
Definition orderedMatches (l : list SearchMatch) : Prop :=
  forall i j a b,
    l !! i = Some a -> l !! j = Some b ->
    ((messageIndex a > messageIndex b)%Z -> i < j)
    ∧ ((messageIndex a = messageIndex b)%Z ->
       (matchIndex a > matchIndex b)%Z -> i < j).

(** [currentMatchIndex] is [-1] or an index into [matches]. *)
Definition cursorValid (s : SearchState) : Prop :=
  currentMatchIndex s = (-1)%Z
  ∨ (0 <= currentMatchIndex s < Z.of_nat (length (matches s)))%Z.

(** The [Idle] state for a filter type. *)
Definition isIdle (s : SearchState) (f : SearchFilterType) : Prop :=
  query s = [] ∧ matches s = [] ∧ currentMatchIndex s = (-1)%Z
  ∧ isSearching s = false ∧ filterType s = f.

(** The message on which the claimed reading and the code part ways: one
    content block that carries both a [text] and a [thinking] string. *)
Definition textAndThinkingMessage : ClaudeMessage :=
  {| uuid := js "u1";
     content :=
       VArray [ VObject {[ "text" := VString (js "a");
                           "thinking" := VString (js "b") ]} ];
     toolUse := VUndefined;
     toolUseResult := VUndefined |}.

(** The cursor and the number of matches of a store. *)
Definition cursorOf (state : AppStore) : Z := currentMatchIndex (sessionSearch state).
Definition totalOf (state : AppStore) : Z :=
  Z.of_nat (length (matches (sessionSearch state))).

(** The navigation frame: everything but the cursor is as before. *)
Definition sameButCursor (before after : AppStore) : Prop :=
  storeMessages after = storeMessages before
  ∧ query (sessionSearch after) = query (sessionSearch before)
  ∧ matches (sessionSearch after) = matches (sessionSearch before)
  ∧ filterType (sessionSearch after) = filterType (sessionSearch before)
  ∧ isSearching (sessionSearch after) = isSearching (sessionSearch before)
  ∧ results (sessionSearch after) = results (sessionSearch before).

(** A store holding the scenario's snapshot and a list of [n] matches,
    with the cursor at [c]. *)
Definition sampleMatch (i : nat) : SearchMatch :=
  {| messageUuid := js "m1"; messageIndex := 1;
     matchIndex := Z.of_nat i; matchCount := 3 |}.

Definition sampleStore (n : nat) (c : Z) : AppStore :=
  {| storeMessages := helloSnapshot;
     sessionSearch :=
       {| query := js "hello"; matches := sampleMatch <$> seq 0 n;
          currentMatchIndex := c; isSearching := false;
          filterType := Content; results := [] |} |}.

(* ================================================================= *)
(** ** The callers of the index and of the search state *)

(** The index singleton of [searchIndex.ts] together with the store. *)
Record World : Type := {
  messageSearchIndex : MessageSearchIndex;
  store : AppStore;
}.

(** [selectSession(session)] up to its [await]: [clearSearchIndex()] and
    the [set] that empties the messages and the search state. *)
Definition selectSessionStart (w : World) : World :=
  {| messageSearchIndex := clear (messageSearchIndex w);
     store :=
       {| storeMessages := [];
          sessionSearch :=
            {| query := []; matches := []; currentMatchIndex := -1;
               isSearching := false;
               filterType := filterType (sessionSearch (store w));
               results := [] |} |} |}.

(** [allMessages.filter((m) => !m.isSidechain)] when [excludeSidechain]
    is set; a loaded message comes with its [isSidechain] flag. *)
Definition sidechainFilter (excludeSidechain : bool)
    (allMessages : list (ClaudeMessage * bool)) : list ClaudeMessage :=
  if excludeSidechain
  then fst <$> List.filter (fun m => negb (snd m)) allMessages
  else fst <$> allMessages.

Section SelectSession.
Context `{H : Host}.

(** [selectSession] from the point where [load_session_messages] settles:
    with the loaded messages, [buildSearchIndex(filteredMessages)] and the
    [set] of [messages]; with a rejection, the [catch], which touches
    neither the index nor the slice of the store kept here. *)
Definition selectSessionSettled (excludeSidechain : bool)
    (loaded : option (list (ClaudeMessage * bool))) (w : World) : World :=
  match loaded with
  | Some allMessages =>
      let filteredMessages := sidechainFilter excludeSidechain allMessages in
      {| messageSearchIndex := build (messageSearchIndex w) filteredMessages;
         store :=
           {| storeMessages := filteredMessages;
              sessionSearch := sessionSearch (store w) |} |}
  | None => w
  end.
End SelectSession.

(** [currentMatch] of the message viewer: the message and the occurrence
    under the cursor, [None] for [null]. *)
Definition currentMatch (sessionSearch : SearchState) : option (jsstring * Z) :=
  if ((0 <=? currentMatchIndex sessionSearch)
      && (0 <? Z.of_nat (length (matches sessionSearch))))%Z
  then
    match at_index (matches sessionSearch) (currentMatchIndex sessionSearch) with
    | Some m => Some (messageUuid m, matchIndex m)
    | None => None
    end
  else None.

(** [map.set(key, value)] on a [Map], kept in insertion order: an existing
    key keeps its place and takes the new value. *)
Fixpoint Map_set {V : Type} (entries : list (jsstring * V)) (key : jsstring)
    (v : V) : list (jsstring * V) :=
  match entries with
  | [] => [(key, v)]
  | (key', v') :: rest =>
      if decide (key' = key) then (key, v) :: rest
      else (key', v') :: Map_set rest key v
  end.

(** [uniqueMessages] of the message viewer:
    [Array.from(new Map(displayMessages.map((msg) => [msg.uuid, msg])).values())],
    and the empty list when there are no messages. *)
Definition uniqueMessages (displayMessages : list ClaudeMessage)
  : list ClaudeMessage :=
  if (length displayMessages =? 0)%nat then []
  else
    snd <$> foldl (fun entries msg => Map_set entries (uuid msg) msg)
                  [] displayMessages.

(** The props of one [ClaudeMessageNode] element the viewer renders. *)
Record MessageNodeProps : Type := {
  propMessage : ClaudeMessage;
  propDepth : nat;
  propIsMatch : bool;
  propIsCurrentMatch : bool;
  propCurrentMatchIndex : option Z;
}.

(** The props [renderMessageTree] and the flat rendering compute for a
    message: [isMatch] from the set of matched uuids, [isCurrentMatch] and
    [messageMatchIndex] from [currentMatch]. *)
Definition nodeProps (sessionSearch : SearchState) (message : ClaudeMessage)
    (depth : nat) : MessageNodeProps :=
  let matchedUuids := messageUuid <$> matches sessionSearch in
  let isCurrentMatch :=
    match currentMatch sessionSearch with
    | Some (currentMatchUuid, _) => bool_decide (currentMatchUuid = uuid message)
    | None => false
    end in
  {| propMessage := message;
     propDepth := depth;
     propIsMatch := bool_decide (uuid message ∈ matchedUuids);
     propIsCurrentMatch := isCurrentMatch;
     propCurrentMatchIndex :=
       if isCurrentMatch then snd <$> currentMatch sessionSearch else None |}.

Section MessageTree.
(** The optional [parentUuid] and [parent_uuid] fields [getParentUuid]
    reads off a message; they are no part of the message type. *)
Context (parentUuid parent_uuid : ClaudeMessage -> option jsstring).

(** [getParentUuid]: [msgWithParent.parentUuid || msgWithParent.parent_uuid] *)
Definition getParentUuid (message : ClaudeMessage) : option jsstring :=
  match parentUuid message with
  | Some s => if truthyString s then Some s else parent_uuid message
  | None => parent_uuid message
  end.

(** [!parentUuid] *)
Definition noParent (p : option jsstring) : bool :=
  match p with
  | Some s => negb (truthyString s)
  | None => true
  end.

(** [rootMessages]: the unique messages without a parent uuid. *)
Definition rootMessages (displayMessages : list ClaudeMessage)
  : list ClaudeMessage :=
  List.filter (fun msg => noParent (getParentUuid msg))
              (uniqueMessages displayMessages).

(** [renderMessageTree(message, depth, visitedIds)]; [fuel] bounds the
    nesting of the calls, [None] is a run that needs more. Each child gets
    its own copy of [visitedIds]. *)
Fixpoint renderMessageTree (fuel : nat) (displayMessages : list ClaudeMessage)
    (sessionSearch : SearchState) (message : ClaudeMessage) (depth : nat)
    (visitedIds : gset jsstring) : option (list MessageNodeProps) :=
  match fuel with
  | O => None
  | S fuel' =>
      if decide (uuid message ∈ visitedIds) then Some []
      else
        let visitedIds := {[ uuid message ]} ∪ visitedIds in
        let children :=
          List.filter
            (fun m => bool_decide (getParentUuid m = Some (uuid message)))
            displayMessages in
        childNodes ←
          mapM (fun child =>
                  renderMessageTree fuel' displayMessages sessionSearch child
                                    (S depth) visitedIds)
               children;
        Some (nodeProps sessionSearch message depth :: concat childNodes)
  end.

(** The message elements of the viewer: nothing without messages; the
    trees of the roots when there is a root; else the unique messages in a
    flat list. The nesting of the tree cannot exceed the number of
    messages, which is the fuel given. *)
Definition renderMessages (displayMessages : list ClaudeMessage)
    (sessionSearch : SearchState) : option (list MessageNodeProps) :=
  if (length displayMessages =? 0)%nat then Some []
  else if (0 <? length (rootMessages displayMessages))%nat then
    trees ←
      mapM (fun message =>
              renderMessageTree (S (length displayMessages)) displayMessages
                                sessionSearch message 0 ∅)
           (rootMessages displayMessages);
    Some (concat trees)
  else
    Some ((fun message => nodeProps sessionSearch message 0)
          <$> uniqueMessages displayMessages).
End MessageTree.

(** A thread for the viewer's examples: [r] is a root, [c] answers [r],
    [o] answers a message that is not displayed, and [x], [y] answer each
    other. *)
Definition threadSnapshot : list ClaudeMessage :=
  [ textMessage "r" "root"; textMessage "c" "child";
    textMessage "o" "orphan"; textMessage "x" "ping"; textMessage "y" "pong" ].

Definition threadParent (m : ClaudeMessage) : option jsstring :=
  if bool_decide (uuid m = js "c") then Some (js "r")
  else if bool_decide (uuid m = js "o") then Some (js "gone")
  else if bool_decide (uuid m = js "x") then Some (js "y")
  else if bool_decide (uuid m = js "y") then Some (js "x")
  else None.

(** What the viewer renders of the thread while no search is active. *)
Definition threadNodes : list MessageNodeProps :=
  [ nodeProps initialSessionSearch (textMessage "r" "root") 0;
    nodeProps initialSessionSearch (textMessage "c" "child") 1 ].

(* ================================================================= *)
(** ** Indices that are not integers *)

(** [goToMatchIndex] takes a JavaScript number. As far as its bounds test
    can tell numbers apart, a number is an integer, a finite number that
    is not an integer (given by the integer just below it: [Fractional 1]
    stands for any value strictly between 1 and 2, such as 1.5), an
    infinity, or NaN. The actions above are the program on integers. *)
Inductive number : Type :=
  | Integer (z : Z)
  | Fractional (below : Z)
  | Infinity (negative : bool)
  | NaN.

(** [x < k] for a number [x] and an integer [k]; false for NaN. *)
Definition number_lt (x : number) (k : Z) : bool :=
  match x with
  | Integer z => (z <? k)%Z
  | Fractional below => (below <? k)%Z
  | Infinity negative => negative
  | NaN => false
  end.

(** [x >= k] for a number [x] and an integer [k]; false for NaN. *)
Definition number_ge (x : number) (k : Z) : bool :=
  match x with
  | Integer z => (k <=? z)%Z
  | Fractional below => (k <=? below)%Z
  | Infinity negative => negb negative
  | NaN => false
  end.

(** The search state with [currentMatchIndex] as the number it holds. *)
Record NumberSearchState : Type := {
  numberQuery : jsstring;
  numberMatches : list SearchMatch;
  numberCurrentMatchIndex : number;
  numberIsSearching : bool;
  numberFilterType : SearchFilterType;
  numberResults : list ClaudeMessage;
}.

(** A search state whose cursor is an integer, as a number search state. *)
Definition asNumberState (s : SearchState) : NumberSearchState :=
  {| numberQuery := query s; numberMatches := matches s;
     numberCurrentMatchIndex := Integer (currentMatchIndex s);
     numberIsSearching := isSearching s; numberFilterType := filterType s;
     numberResults := results s |}.

(** [goToMatchIndex(index)] for any number [index], called on a store
    whose cursor is an integer: the search state the store holds after
    the call. *)
Definition goToMatchIndexNumber (state : AppStore) (index : number)
  : NumberSearchState :=
  let sessionSearch := sessionSearch state in
  let matches := matches sessionSearch in
  if number_lt index 0 || number_ge index (Z.of_nat (length matches))
  then asNumberState sessionSearch
  else
    {| numberQuery := query sessionSearch; numberMatches := matches;
       numberCurrentMatchIndex := index;
       numberIsSearching := isSearching sessionSearch;
       numberFilterType := filterType sessionSearch;
       numberResults := results sessionSearch |}.

(** [matches[x]] for a number [x]: only an integer inside the array names
    an element, every other number gives [undefined]. *)
Definition at_number {A : Type} (arr : list A) (x : number) : option A :=
  match x with
  | Integer z => at_index arr z
  | _ => None
  end.

(** [currentMatch] of the message viewer on a search state whose cursor
    may be any number. *)
Definition currentMatchNumber (sessionSearch : NumberSearchState)
  : option (jsstring * Z) :=
  if number_ge (numberCurrentMatchIndex sessionSearch) 0
     && (0 <? Z.of_nat (length (numberMatches sessionSearch)))%Z
  then
    match at_number (numberMatches sessionSearch)
            (numberCurrentMatchIndex sessionSearch) with
    | Some m => Some (messageUuid m, matchIndex m)
    | None => None
    end
  else None.

(** [currentMatchIndex] is [-1] or an index into [matches], for a cursor
    that may be any number. *)
Definition cursorValidNumber (s : NumberSearchState) : Prop :=
  numberCurrentMatchIndex s = Integer (-1)
  ∨ exists i : Z,
      numberCurrentMatchIndex s = Integer i
      ∧ (0 <= i < Z.of_nat (length (numberMatches s)))%Z.

(** The cursor is an index into the matches; without matches it is [-1]. *)
Definition cursorTightNumber (s : NumberSearchState) : Prop :=
  (numberMatches s = [] ∧ numberCurrentMatchIndex s = Integer (-1))
  ∨ exists i : Z,
      numberCurrentMatchIndex s = Integer i
      ∧ (0 <= i < Z.of_nat (length (numberMatches s)))%Z.

(** The store in its initial state. *)
Definition initialStore : AppStore :=
  {| storeMessages := []; sessionSearch := initialSessionSearch |}.

(** The numbers the bounds test lets through although they are no index:
    NaN, and the non-integers between [0] and the number of matches. *)
Definition slipsThrough (index : number) (total : Z) : Prop :=
  index = NaN ∨ exists below, index = Fractional below ∧ (0 <= below < total)%Z.

(* ================================================================= *)
(** ** Descriptions the further properties are stated with *)

(** The text [search] scans in a message for a field. *)
Definition fieldText (f : SearchFilterType) (message : ClaudeMessage) : jsstring :=
  match f with
  | ToolId => extractToolIds message
  | Content => extractSearchableText message
  end.

(** The identifiers one content block gives to the tool-id text. *)
Definition blockToolIds (item : value) : list jsstring :=
  match item with
  | VObject o =>
      (if hasType o "tool_use" then optionText (stringProperty o "id") else [])
      ++ (if hasType o "tool_result"
          then optionText (stringProperty o "tool_use_id") else [])
  | _ => []
  end.

(** The identifiers of a message: those of its content blocks, then
    [toolUse.id]. *)
Definition toolIdTexts (message : ClaudeMessage) : list jsstring :=
  match content message with
  | VArray items => items ≫= blockToolIds
  | _ => []
  end
  ++ match toolUse message with
     | VObject o => optionText (stringProperty o "id")
     | _ => []
     end.

(** The match records of one message with [n] occurrences, in the order
    they are pushed. *)
Definition occurrenceMatches (u : jsstring) (i n : nat) : list SearchMatch :=
  (fun k =>
     {| messageUuid := u; messageIndex := Z.of_nat i;
        matchIndex := Z.of_nat k; matchCount := Z.of_nat n |}) <$> seq 0 n.

(** No message after position [j] carries the uuid [u]. *)
Definition lastWithUuid (msgs : list ClaudeMessage) (j : nat) (u : jsstring) : Prop :=
  forall j' m', j < j' -> msgs !! j' = Some m' -> uuid m' ≠ u.

(** A match as [search] builds it for message [i] of the index: its uuid
    resolves to [i], and its count is the occurrence count of the query in
    the field text of that message. *)
Definition matchResolves {H : Host} (this : MessageSearchIndex)
    (lowerQuery : jsstring) (f : SearchFilterType) (x : SearchMatch) : Prop :=
  exists i m n,
    messageMap this !! messageUuid x = Some i
    ∧ messages this !! i = Some m
    ∧ messageIndex x = Z.of_nat i
    ∧ findAllMatchesInText (fieldText f m) lowerQuery = Returns n
    ∧ matchCount x = Z.of_nat n
    ∧ (0 <= matchIndex x < matchCount x)%Z.

(** The document [build] adds to the index of a field for message [i];
    a message whose text for the field is blank gets none. *)
Definition indexedDocument {H : Host} (f : SearchFilterType) (i : nat)
    (m : ClaudeMessage) : SearchDocument :=
  {| doc_uuid := uuid m; doc_messageIndex := i;
     doc_text := toLowerCase (fieldText f m) |}.

(** The documents [build] hands to the index of a field for the messages
    [msgs], the first of which stands at position [i] of the snapshot: in
    order, one for each message whose text for the field is not blank. *)
Fixpoint documentsFrom {H : Host} (f : SearchFilterType) (i : nat)
    (msgs : list ClaudeMessage) : list SearchDocument :=
  match msgs with
  | [] => []
  | m :: rest =>
      (if isBlank (fieldText f m) then [] else [indexedDocument f i m])
      ++ documentsFrom f (S i) rest
  end.

(** What one candidate uuid adds to [allMatches]: nothing when it does not
    resolve to a message, else one record per occurrence. *)
Definition blockOf {H : Host} (this : MessageSearchIndex)
    (lowerQuery : jsstring) (f : SearchFilterType)
    (block : list SearchMatch) (u : jsstring) : Prop :=
  block = []
  ∨ exists i m n,
      messageMap this !! u = Some i
      ∧ messages this !! i = Some m
      ∧ findAllMatchesInText (fieldText f m) lowerQuery = Returns n
      ∧ block = occurrenceMatches u i n.

(** The match of the same message with occurrence number [k]. *)
Definition withMatchIndex (x : SearchMatch) (k : Z) : SearchMatch :=
  {| messageUuid := messageUuid x; messageIndex := messageIndex x;
     matchIndex := k; matchCount := matchCount x |}.

(** The cursor points into the matches; without matches it is [-1]. *)
Definition cursorTight (s : SearchState) : Prop :=
  (matches s = [] ∧ currentMatchIndex s = (-1)%Z)
  ∨ (0 <= currentMatchIndex s < Z.of_nat (length (matches s)))%Z.

(** What every reachable search state satisfies. *)
Definition searchInvariant (s : SearchState) : Prop :=
  cursorTight s ∧ StronglySorted mayPrecede (matches s).

(** The second of the matches of the echo snapshot: the later of the two
    occurrences in message [0]. *)
Definition echoSecond : SearchMatch :=
  {| messageUuid := js "m0"; messageIndex := 0; matchIndex := 1; matchCount := 2 |}.

(** The index and the store as a session with the scenario's snapshot
    leaves them. *)
Definition helloWorld : World :=
  {| messageSearchIndex := helloIndex; store := helloFound |}.

(** What [load_session_messages] answers with: the scenario's messages and
    one sidechain message. *)
Definition loadedMessages : list (ClaudeMessage * bool) :=
  [ (textMessage "m0" "hello world", false);
    (textMessage "s0" "hello from the side", true);
    (textMessage "m1" "say hello", false);
    (textMessage "m2" "goodbye", false) ].

(** The index and the store when ["hello"] has been typed while the
    session was being loaded: the index is cleared, the query is stored
    with no match. *)
Definition typedWhileLoading : World :=
  {| messageSearchIndex := clear helloIndex;
     store :=
       {| storeMessages := [];
          sessionSearch :=
            {| query := js "hello"; matches := []; currentMatchIndex := -1;
               isSearching := false; filterType := Content; results := [] |} |} |}.

(** Two uuids that share a message list, for the viewer's examples. *)
Definition repeatedSnapshot : list ClaudeMessage :=
  [ textMessage "a" "first"; textMessage "b" "other"; textMessage "a" "second" ].

(** A message whose only searchable part is a tool identifier. *)
Definition toolMessage : ClaudeMessage :=
  {| uuid := js "t1"; content := VUndefined;
     toolUse := VObject {[ "id" := VString (js "tu_42");
                           "name" := VString (js "Bash") ]};
     toolUseResult := VUndefined |}.

(** A text that mentions a tool identifier, and the message of the tool
    call itself. *)
Definition toolSnapshot : list ClaudeMessage :=
  [ textMessage "m0" "see tu_42"; toolMessage ].

Definition toolIndex : MessageSearchIndex :=
  build (H := asciiHost) newMessageSearchIndex toolSnapshot.

Definition toolMatch : SearchMatch :=
  {| messageUuid := js "t1"; messageIndex := 1; matchIndex := 0; matchCount := 1 |}.


(* ================================================================= *)
(** ** Properties of the text extractor *)

Lemma pushStringProperty_app parts o key :
  pushStringProperty parts o key = parts ++ optionText (stringProperty o key).
Proof.
  unfold pushStringProperty, push.
  destruct (stringProperty o key); simpl; [done | by rewrite app_nil_r].
Qed.

Lemma content_loop_app items : forall parts,
  foldl (fun parts item =>
           match item with
           | VString s => push parts s
           | VObject o =>
               pushStringProperty (pushStringProperty parts o "text") o "thinking"
           | _ => parts
           end) parts items
  = parts ++ (items ≫= elementTexts).
Proof.
  induction items as [|item items IH]; intros parts; simpl.
  - by rewrite app_nil_r.
  - rewrite IH. destruct item; simpl; rewrite ?app_nil_r; try done.
    + unfold push. by rewrite <- app_assoc.
    + rewrite !pushStringProperty_app. by rewrite <- !app_assoc.
Qed.

(** C3, as stated, fails: for a content block with both a [text] and a
    [thinking] string the code yields both, joined by a space, where the
    claimed reading yields the [text] alone. *)
Lemma extractSearchableText_claimed_counterexample :
  extractSearchableText textAndThinkingMessage = js "a b"
  ∧ extractContentTextClaimed textAndThinkingMessage = js "a"
  ∧ ¬ (forall message,
         extractSearchableText message = extractContentTextClaimed message).
Proof.
  assert (Hcode : extractSearchableText textAndThinkingMessage = js "a b")
    by (vm_compute; reflexivity).
  assert (Hclaim : extractContentTextClaimed textAndThinkingMessage = js "a")
    by (vm_compute; reflexivity).
  split; [exact Hcode | split; [exact Hclaim |]].
  intros Hall. specialize (Hall textAndThinkingMessage).
  rewrite Hcode, Hclaim in Hall. discriminate Hall.
Qed.

(** C3 (amended): for every message, [extractSearchableText] is the
    space-joined sequence of: the content if it is a non-empty string, or,
    for each element of a content array, the element itself if it is a
    string and otherwise, for a record, its [text] string followed by its
    [thinking] string (each one that is present as a string, both when both
    are); then [toolUse.name] if it is a string; then [toolUseResult] if it
    is a non-empty string, or its [stdout], [stderr] and [content] strings
    if it is a record. *)
Theorem extractSearchableText_amended (message : ClaudeMessage) :
  extractSearchableText message = extractContentTextAmended message.
Proof.
  unfold extractSearchableText, extractContentTextAmended.
  cbv zeta. f_equal.
  assert (Hc :
    (if truthy (content message) then
       match content message with
       | VString s => push [] s
       | VArray items =>
           foldl (fun parts item =>
                    match item with
                    | VString s => push parts s
                    | VObject o =>
                        pushStringProperty (pushStringProperty parts o "text")
                                           o "thinking"
                    | _ => parts
                    end) [] items
       | _ => []
       end
     else [])
    = match content message with
      | VString s => nonEmptyText s
      | VArray items => items ≫= elementTexts
      | _ => []
      end).
  { destruct (content message) as [| |b|n|s|items|o]; simpl; try done.
    - by destruct b.
    - by destruct (negb _).
    - by destruct s.
    - by rewrite content_loop_app. }
  rewrite Hc. clear Hc.
  set (cs := match content message with
             | VString s => nonEmptyText s
             | VArray items => items ≫= elementTexts
             | _ => []
             end).
  assert (Hn :
    match toolUse message with
    | VObject o => pushStringProperty cs o "name"
    | _ => cs
    end = cs ++ toolUseNameTexts message).
  { unfold toolUseNameTexts.
    destruct (toolUse message); rewrite ?app_nil_r; try done.
    apply pushStringProperty_app. }
  rewrite Hn. clear Hn.
  set (ns := cs ++ toolUseNameTexts message).
  rewrite app_assoc. fold ns.
  destruct (toolUseResult message) as [| |b|n|s|items|o]; simpl;
    rewrite ?app_nil_r; try done.
  - by destruct b.
  - by destruct (negb _).
  - destruct s; simpl; [by rewrite app_nil_r | done].
  - rewrite !pushStringProperty_app. unfold resultRecordTexts.
    by rewrite <- !app_assoc.
Qed.

(* ================================================================= *)
(** ** Properties of the cursor *)

Lemma goToNextMatch_cursor state :
  matches (sessionSearch state) ≠ [] ->
  cursorOf (goToNextMatch state) = Z.rem (cursorOf state + 1) (totalOf state).
Proof.
  intros Hne. unfold goToNextMatch, cursorOf, totalOf.
  destruct (matches (sessionSearch state)) as [|m ms] eqn:E; [done |].
  replace (Z.of_nat (length (m :: ms)) =? 0)%Z with false; [done |].
  symmetry. apply Z.eqb_neq. simpl length. lia.
Qed.

Lemma goToNextMatch_total state : totalOf (goToNextMatch state) = totalOf state.
Proof.
  unfold goToNextMatch, totalOf.
  by destruct (Z.of_nat (length (matches (sessionSearch state))) =? 0)%Z.
Qed.

Lemma goToNextMatch_matches state :
  matches (sessionSearch (goToNextMatch state)) = matches (sessionSearch state).
Proof.
  unfold goToNextMatch.
  by destruct (Z.of_nat (length (matches (sessionSearch state))) =? 0)%Z.
Qed.

(** [k] steps forward from a cursor inside the list. *)
Lemma goToNextMatch_iter (k : nat) state :
  (0 <= cursorOf state < totalOf state)%Z ->
  cursorOf (Nat.iter k goToNextMatch state)
  = ((cursorOf state + Z.of_nat k) mod totalOf state)%Z
  ∧ totalOf (Nat.iter k goToNextMatch state) = totalOf state.
Proof.
  intros Hc. induction k as [|k [IHc IHn]].
  - simpl. split; [|done]. rewrite Z.add_0_r. symmetry. by apply Z.mod_small.
  - change (Nat.iter (S k) goToNextMatch state)
      with (goToNextMatch (Nat.iter k goToNextMatch state)).
    split; [| by rewrite goToNextMatch_total].
    rewrite goToNextMatch_cursor.
    + rewrite IHc, IHn.
      rewrite Z.rem_mod_nonneg.
      * rewrite Zplus_mod_idemp_l. f_equal. lia.
      * pose proof (Z.mod_pos_bound (cursorOf state + Z.of_nat k) (totalOf state)).
        lia.
      * lia.
    + intros Hnil. unfold totalOf, cursorOf in *. rewrite Hnil in IHn.
      simpl in IHn. lia.
Qed.

Lemma goToPrevMatch_cursor state :
  matches (sessionSearch state) ≠ [] ->
  cursorOf (goToPrevMatch state)
  = if (cursorOf state <=? 0)%Z then (totalOf state - 1)%Z
    else (cursorOf state - 1)%Z.
Proof.
  intros Hne. unfold goToPrevMatch, cursorOf, totalOf.
  destruct (matches (sessionSearch state)) as [|m ms] eqn:E; [done |].
  replace (Z.of_nat (length (m :: ms)) =? 0)%Z with false.
  - simpl. by destruct (currentMatchIndex (sessionSearch state) <=? 0)%Z.
  - symmetry. apply Z.eqb_neq. simpl length. lia.
Qed.

(** C4: with [n > 0] matches, [goToNextMatch] sets the cursor to
    [(cursor + 1) % n], which is [(cursor + 1) mod n] for every cursor from
    [-1] on, so [n] calls from cursor [0] lead back to [0];
    [goToPrevMatch] sets it to [n - 1] when [cursor <= 0] and to
    [cursor - 1] otherwise; with no matches both leave the store as it is. *)
Theorem navigation_wraps (state : AppStore) :
  (matches (sessionSearch state) ≠ [] ->
     cursorOf (goToNextMatch state)
       = Z.rem (cursorOf state + 1) (totalOf state)
     ∧ ((-1 <= cursorOf state)%Z ->
        cursorOf (goToNextMatch state)
          = ((cursorOf state + 1) mod totalOf state)%Z)
     ∧ (cursorOf state = 0%Z ->
        cursorOf (Nat.iter (length (matches (sessionSearch state)))
                           goToNextMatch state) = 0%Z)
     ∧ ((cursorOf state <= 0)%Z ->
        cursorOf (goToPrevMatch state) = (totalOf state - 1)%Z)
     ∧ ((0 < cursorOf state)%Z ->
        cursorOf (goToPrevMatch state) = (cursorOf state - 1)%Z))
  ∧ (matches (sessionSearch state) = [] ->
     goToNextMatch state = state ∧ goToPrevMatch state = state).
Proof.
  split.
  - intros Hne.
    assert (Hn : (0 < totalOf state)%Z).
    { unfold totalOf. destruct (matches (sessionSearch state)); [done |].
      simpl length. lia. }
    repeat split.
    + by apply goToNextMatch_cursor.
    + intros Hc. rewrite goToNextMatch_cursor by done.
      apply Z.rem_mod_nonneg; lia.
    + intros Hc.
      destruct (goToNextMatch_iter (length (matches (sessionSearch state))) state)
        as [Hk _]; [lia |].
      rewrite Hk, Hc. unfold totalOf. simpl. apply Z_mod_same_full.
    + intros Hc. rewrite goToPrevMatch_cursor by done.
      destruct (Z.leb_spec (cursorOf state) 0); [done | lia].
    + intros Hc. rewrite goToPrevMatch_cursor by done.
      destruct (Z.leb_spec (cursorOf state) 0); [lia | done].
  - intros Hnil. unfold goToNextMatch, goToPrevMatch. by rewrite Hnil.
Qed.

Lemma navigation_wraps_witness :
  cursorOf (goToNextMatch (sampleStore 3 2)) = 0%Z
  ∧ cursorOf (Nat.iter 3 goToNextMatch (sampleStore 3 0)) = 0%Z
  ∧ cursorOf (goToPrevMatch (sampleStore 3 0)) = 2%Z
  ∧ cursorOf (goToPrevMatch (sampleStore 3 2)) = 1%Z
  ∧ goToNextMatch (sampleStore 0 (-1)) = sampleStore 0 (-1)
  ∧ goToPrevMatch (sampleStore 0 (-1)) = sampleStore 0 (-1).
Proof.
  destruct (navigation_wraps (sampleStore 3 2)) as [H2 _].
  destruct H2 as (_ & Hnext & _ & _ & Hprev2); [discriminate |].
  destruct (navigation_wraps (sampleStore 3 0)) as [H0 _].
  destruct H0 as (_ & _ & Hiter & Hprev0 & _); [discriminate |].
  destruct (navigation_wraps (sampleStore 0 (-1))) as [_ Hnil].
  destruct Hnil as [Hn Hp]; [reflexivity |].
  split; [rewrite Hnext; [reflexivity | unfold cursorOf; simpl; lia] |].
  split; [exact (Hiter eq_refl) |].
  split; [rewrite Hprev0; [reflexivity | unfold cursorOf; simpl; lia] |].
  split; [rewrite Hprev2; [reflexivity | unfold cursorOf; simpl; lia] |].
  split; [exact Hn | exact Hp].
Defined.

(** C6: [goToMatchIndex(i)] with [i] outside [[0, len)] leaves the whole
    store, the search state included, as it was; with [i] inside, the
    cursor becomes [i]. *)
Theorem goToMatchIndex_validated (state : AppStore) (i : Z) :
  ((i < 0 ∨ totalOf state <= i)%Z -> goToMatchIndex state i = state)
  ∧ ((0 <= i < totalOf state)%Z -> cursorOf (goToMatchIndex state i) = i).
Proof.
  unfold goToMatchIndex, totalOf, cursorOf. split; intros Hi.
  - replace ((i <? 0)%Z || (Z.of_nat (length (matches (sessionSearch state))) <=? i)%Z)
      with true; [done |].
    symmetry. apply orb_true_iff. destruct Hi; [left | right]; lia.
  - replace ((i <? 0)%Z || (Z.of_nat (length (matches (sessionSearch state))) <=? i)%Z)
      with false; [done |].
    symmetry. apply orb_false_iff. split; lia.
Qed.

Lemma goToMatchIndex_validated_witness :
  goToMatchIndex (sampleStore 3 1) 3 = sampleStore 3 1
  ∧ goToMatchIndex (sampleStore 3 1) (-1) = sampleStore 3 1
  ∧ cursorOf (goToMatchIndex (sampleStore 3 1) 2) = 2%Z.
Proof.
  split; [apply (goToMatchIndex_validated (sampleStore 3 1) 3); right;
          unfold totalOf; simpl; lia |].
  split; [apply (goToMatchIndex_validated (sampleStore 3 1) (-1)); left; lia |].
  apply (goToMatchIndex_validated (sampleStore 3 1) 2).
  unfold totalOf; simpl; lia.
Defined.

(** C9: [setSearchFilterType(f)] leaves an [Idle] search state (empty
    query, no matches, cursor [-1], not searching) whose filter type is [f],
    whatever the query and matches were; [clearSessionSearch()] leaves an
    [Idle] search state whose filter type is the one it had. *)
Theorem reset_to_idle (state : AppStore) (f : SearchFilterType) :
  isIdle (sessionSearch (setSearchFilterType state f)) f
  ∧ isIdle (sessionSearch (clearSessionSearch state))
           (filterType (sessionSearch state)).
Proof. by split. Qed.

(** C10: [goToNextMatch], [goToPrevMatch] and [goToMatchIndex] change
    nothing but [currentMatchIndex]: the query, the matches, the filter
    type and the searching flag are as before. *)
Theorem navigation_frame (state : AppStore) (i : Z) :
  sameButCursor state (goToNextMatch state)
  ∧ sameButCursor state (goToPrevMatch state)
  ∧ sameButCursor state (goToMatchIndex state i).
Proof.
  unfold sameButCursor, goToNextMatch, goToPrevMatch, goToMatchIndex.
  repeat split;
    try (by destruct (Z.of_nat (length (matches (sessionSearch state))) =? 0)%Z);
    by destruct ((i <? 0)%Z
                 || (Z.of_nat (length (matches (sessionSearch state))) <=? i)%Z).
Qed.

(* ================================================================= *)
(** ** Properties of [trim] *)

Lemma trimStart_nil_iff s : trimStart s = [] ↔ isBlank s = true.
Proof.
  induction s as [|c s IH]; simpl; [done |].
  destruct (isWhiteSpace c); simpl; [exact IH | split; discriminate].
Qed.

Lemma trimStart_keeps s c :
  c ∈ s -> isWhiteSpace c = false -> trimStart s ≠ [].
Proof.
  intros Hin Hc Hnil. apply trimStart_nil_iff in Hnil.
  unfold isBlank in Hnil. rewrite forallb_forall in Hnil.
  apply list_elem_of_In in Hin. specialize (Hnil c Hin). congruence.
Qed.

Lemma trimStart_head s c r : trimStart s = c :: r -> isWhiteSpace c = false.
Proof.
  induction s as [|d s IH]; simpl; [discriminate |].
  destruct (isWhiteSpace d) eqn:E; [exact IH |].
  intros [= <- _]. exact E.
Qed.

(** [!query.trim()] holds exactly for the blank queries. *)
Lemma trim_falsy_iff q : truthyString (trim q) = false ↔ isBlank q = true.
Proof.
  unfold trim, trimEnd. rewrite <- trimStart_nil_iff.
  destruct (trimStart q) as [|c r] eqn:E; simpl; [done |].
  split; [| discriminate].
  intros Hf. exfalso.
  pose proof (trimStart_head _ _ _ E) as Hc.
  assert (Hne : trimStart (reverse (c :: r)) ≠ []).
  { apply (trimStart_keeps _ c); [| done].
    apply elem_of_reverse. by left. }
  destruct (trimStart (reverse (c :: r))) as [|d t] eqn:E2; [done |].
  assert (Hr : reverse (d :: t) ≠ []).
  { intros Hr. apply (f_equal length) in Hr.
    rewrite length_reverse in Hr. simpl in Hr. lia. }
  destruct (reverse (d :: t)); [done | discriminate Hf].
Qed.

(* ================================================================= *)
(** ** Properties of the index *)

Section IndexProperties.
Context `{H : Host}.

Lemma search_not_built this q f :
  isBuilt this = false -> search this q f = Returns [].
Proof. intros Hb. unfold search. by rewrite Hb. Qed.

Lemma search_blank this q f :
  isBlank q = true -> search this q f = Returns [].
Proof.
  intros Hq. apply trim_falsy_iff in Hq. unfold search. rewrite Hq.
  by rewrite orb_true_r.
Qed.

Lemma afterCalls_only_clear calls :
  forallb isCallClear calls = true -> isBuilt (afterCalls calls) = false.
Proof.
  unfold afterCalls.
  assert (Hgen : forall this, isBuilt this = false ->
            forallb isCallClear calls = true ->
            isBuilt (foldl applyCall this calls) = false).
  { induction calls as [|c calls IH]; intros this Hb Hall; simpl; [done |].
    simpl in Hall. apply andb_true_iff in Hall as [Hc Hall].
    destruct c; [discriminate |]. by apply IH. }
  intros Hall. by apply Hgen.
Qed.

(** C7: [search] answers with the empty list for a blank query (empty or
    whitespace only) on any index; on an index on which [build] was never
    called, whatever the query; and after [clear()], whatever calls,
    [build] included, came before it. A later [build] marks the index
    built again. *)
Theorem search_empty_when_unbuilt_or_blank
    (this : MessageSearchIndex) (q : jsstring) (f : SearchFilterType)
    (calls : list indexCall) (msgs : list ClaudeMessage) :
  (isBlank q = true -> search this q f = Returns [])
  ∧ (forallb isCallClear calls = true ->
     search (afterCalls calls) q f = Returns [])
  ∧ search (afterCalls (calls ++ [CallClear])) q f = Returns []
  ∧ search (clear this) q f = Returns []
  ∧ isBuilt (build (clear this) msgs) = true.
Proof.
  split; [apply search_blank |].
  split; [intros Hc; by apply search_not_built, afterCalls_only_clear |].
  split; [| split; [by apply search_not_built | done]].
  apply search_not_built. unfold afterCalls. by rewrite foldl_app.
Qed.
End IndexProperties.

(* ================================================================= *)
(** ** Properties of the sort *)

Lemma compareMatches_le a b :
  mayPrecede a b
  ↔ (messageIndex a > messageIndex b)%Z
    ∨ (messageIndex a = messageIndex b ∧ matchIndex a >= matchIndex b)%Z.
Proof.
  unfold mayPrecede, sortsBefore, compareMatches.
  destruct (Z.eqb_spec (messageIndex a) (messageIndex b)); simpl; lia.
Qed.

#[local] Instance mayPrecede_total : Total mayPrecede.
Proof. intros a b. rewrite !compareMatches_le. lia. Qed.

#[local] Instance mayPrecede_trans : Transitive mayPrecede.
Proof. intros a b c. rewrite !compareMatches_le. lia. Qed.

Section Sort.
Context {A : Type} (compareFn : A -> A -> Z).
Context (before_total : Total (sortsBefore compareFn)).
Context (before_trans : Transitive (sortsBefore compareFn)).

Lemma sortInsert_Forall (P : A -> Prop) x l :
  P x -> Forall P l -> Forall P (sortInsert compareFn x l).
Proof.
  intros Hx Hl. induction Hl as [|y l Hy Hl IH]; simpl.
  - by constructor.
  - destruct (compareFn x y <=? 0)%Z; repeat constructor; done.
Qed.

Lemma sortInsert_sorted x l :
  StronglySorted (sortsBefore compareFn) l -> StronglySorted (sortsBefore compareFn) (sortInsert compareFn x l).
Proof using before_total before_trans.
  induction 1 as [|y l Hl IH Hy]; simpl.
  - repeat constructor.
  - destruct (Z.leb_spec (compareFn x y) 0) as [Hxy | Hxy].
    + constructor; [by constructor |].
      constructor; [done |].
      eapply Forall_impl; [exact Hy |]. intros z Hz. by transitivity y.
    + constructor; [exact IH |].
      apply sortInsert_Forall; [| done].
      destruct (before_total x y) as [Hb | Hb]; [unfold sortsBefore in Hb; lia | done].
Qed.

Lemma Array_sort_sorted l : StronglySorted (sortsBefore compareFn) (Array_sort compareFn l).
Proof using before_total before_trans.
  induction l as [|x l IH]; simpl; [constructor | by apply sortInsert_sorted].
Qed.

Lemma sortInsert_perm x l : sortInsert compareFn x l ≡ₚ x :: l.
Proof.
  induction l as [|y l IH]; simpl; [done |].
  destruct (compareFn x y <=? 0)%Z; [done |].
  rewrite IH. apply Permutation_swap.
Qed.

(** The sort only rearranges. *)
Lemma Array_sort_perm l : Array_sort compareFn l ≡ₚ l.
Proof.
  induction l as [|x l IH]; simpl; [done |].
  by rewrite sortInsert_perm, IH.
Qed.
End Sort.

(** In a list sorted by [mayPrecede], positions respect the ordering law. *)
Lemma sorted_orderedMatches l : StronglySorted mayPrecede l -> orderedMatches l.
Proof.
  intros Hs i j a b Hi Hj.
  assert (Hlate : j < i -> mayPrecede b a).
  { intros Hlt.
    rewrite <- (take_drop i l) in Hs.
    apply (StronglySorted_app_1_elem_of _ _ _ b a) in Hs; [done | |].
    - apply list_elem_of_lookup. exists j. by rewrite lookup_take_lt.
    - apply list_elem_of_lookup. exists 0. rewrite lookup_drop.
      by rewrite Nat.add_0_r. }
  split.
  - intros Hgt. destruct (decide (i < j)) as [|Hge]; [done |].
    destruct (decide (i = j)) as [-> | Hne].
    + rewrite Hi in Hj. injection Hj as ->. lia.
    + assert (Hb : mayPrecede b a) by (apply Hlate; lia).
      apply compareMatches_le in Hb. lia.
  - intros Heq Hgt. destruct (decide (i < j)) as [|Hge]; [done |].
    destruct (decide (i = j)) as [-> | Hne].
    + rewrite Hi in Hj. injection Hj as ->. lia.
    + assert (Hb : mayPrecede b a) by (apply Hlate; lia).
      apply compareMatches_le in Hb. lia.
Qed.

Section SearchOrder.
Context `{H : Host}.

(** A list that [search] returns obeys the ordering law. *)
Lemma search_returns_ordered (this : MessageSearchIndex) (q : jsstring)
    (f : SearchFilterType) (found : list SearchMatch) :
  search this q f = Returns found -> orderedMatches found.
Proof.
  unfold search.
  destruct (negb (isBuilt this) || negb (truthyString (trim q))).
  - intros [= <-]. intros i j a b Hi. by rewrite lookup_nil in Hi.
  - destruct (indexSearch _ _ _ _) as [fieldResults|]; [| discriminate].
    destruct (forEachM _ _ _) as [allMatches| |]; simpl; try discriminate.
    intros [= <-]. apply sorted_orderedMatches.
    apply Array_sort_sorted; apply _.
Qed.
End SearchOrder.

(* ================================================================= *)
(** ** Properties of the occurrence count *)

Lemma startsWith_prefix s q : startsWith s q = true ↔ q `prefix_of` s.
Proof.
  revert s. induction q as [|a q IH]; intros [|b s]; simpl.
  - split; [intros _; apply prefix_nil | done].
  - split; [intros _; apply prefix_nil | done].
  - split; [discriminate | intros Hp; by apply prefix_nil_not in Hp].
  - rewrite andb_true_iff, IH, N.eqb_eq. split.
    + intros [-> Hp]. by apply prefix_cons.
    + intros Hp. split.
      * by apply prefix_cons_inv_1 in Hp.
      * by apply prefix_cons_inv_2 in Hp.
Qed.

Lemma startsWith_false s q : startsWith s q = false ↔ ¬ q `prefix_of` s.
Proof.
  rewrite <- startsWith_prefix. by destruct (startsWith s q).
Qed.

Lemma indexOfFrom_unfold s q k :
  indexOfFrom s q k
  = if startsWith s q then Some k
    else match s with
         | [] => None
         | _ :: s' => indexOfFrom s' q (S k)
         end.
Proof. by destruct s. Qed.

Lemma indexOfFrom_Some s q : forall k p,
  indexOfFrom s q k = Some p ->
  k <= p ∧ q `prefix_of` drop (p - k) s
  ∧ forall j, j < p - k -> ¬ q `prefix_of` drop j s.
Proof.
  induction s as [|c s IH]; intros k p; rewrite indexOfFrom_unfold.
  - destruct (startsWith [] q) eqn:E; [| discriminate].
    intros [= <-]. rewrite Nat.sub_diag.
    split; [lia |]. split; [by apply startsWith_prefix | lia].
  - destruct (startsWith (c :: s) q) eqn:E.
    + intros [= <-]. rewrite Nat.sub_diag.
      split; [lia |]. split; [by apply startsWith_prefix | lia].
    + intros Hrec. apply IH in Hrec as (Hk & Hp & Hfirst).
      replace (p - k) with (S (p - S k)) by lia.
      split; [lia |]. split; [done |].
      intros [|j] Hj; [by apply startsWith_false |].
      apply Hfirst. lia.
Qed.

Lemma indexOfFrom_None s q : forall k,
  indexOfFrom s q k = None -> forall j, ¬ q `prefix_of` drop j s.
Proof.
  induction s as [|c s IH]; intros k; rewrite indexOfFrom_unfold.
  - destruct (startsWith [] q) eqn:E; [discriminate |].
    intros _ j. rewrite drop_nil. by apply startsWith_false.
  - destruct (startsWith (c :: s) q) eqn:E; [discriminate |].
    intros Hrec [|j]; [by apply startsWith_false |].
    by apply (IH (S k)).
Qed.

(** A hit of [indexOf] is the first occurrence at or after the position. *)
Lemma indexOf_Some t q pos p :
  pos <= length t ->
  indexOf t q pos = Some p ->
  pos <= p ∧ occursAt t q p
  ∧ forall p', pos <= p' -> p' < p -> ¬ occursAt t q p'.
Proof.
  intros Hpos. unfold indexOf, occursAt.
  rewrite Nat.min_l by done.
  intros Hi. apply indexOfFrom_Some in Hi as (Hk & Hp & Hfirst).
  rewrite drop_drop in Hp. replace (pos + (p - pos)) with p in Hp by lia.
  split; [done |]. split; [done |].
  intros p' Hge Hlt Hocc. apply (Hfirst (p' - pos)); [lia |].
  rewrite drop_drop. by replace (pos + (p' - pos)) with p' by lia.
Qed.

(** A miss of [indexOf] means no occurrence at or after the position. *)
Lemma indexOf_None t q pos :
  pos <= length t ->
  indexOf t q pos = None ->
  forall p, pos <= p -> ¬ occursAt t q p.
Proof.
  intros Hpos. unfold indexOf, occursAt.
  rewrite Nat.min_l by done.
  intros Hi p Hge Hocc.
  apply (indexOfFrom_None _ _ _ Hi (p - pos)).
  rewrite drop_drop. by replace (pos + (p - pos)) with p by lia.
Qed.

(** An occurrence of a non-empty query ends inside the text. *)
Lemma occursAt_bound t q p :
  q ≠ [] -> occursAt t q p -> p + length q <= length t ∧ 0 < length q.
Proof.
  intros Hq Hocc. apply prefix_length in Hocc. rewrite length_drop in Hocc.
  destruct q; [done |]. simpl in *. lia.
Qed.

(** With a non-empty query the loop returns within [length t - pos + 1]
    rounds, and what it adds to [count] is the number of offsets of the
    left-to-right scan. *)
Lemma countLoop_scan t q :
  q ≠ [] ->
  forall fuel count pos,
    pos <= length t -> length t - pos < fuel ->
    exists ps,
      scanFrom t q pos ps
      ∧ countLoop fuel t q count pos = Returns (count + length ps).
Proof.
  intros Hq. induction fuel as [|fuel IH]; intros count pos Hpos Hfuel; [lia |].
  simpl. destruct (indexOf t q pos) as [p|] eqn:E.
  - apply indexOf_Some in E as (Hge & Hocc & Hfirst); [| done].
    destruct (occursAt_bound _ _ _ Hq Hocc) as [Hend Hlen].
    destruct (IH (S count) (p + length q)) as (ps & Hscan & Hrun); [lia | lia |].
    exists (p :: ps). split; [by constructor |].
    rewrite Hrun. simpl. f_equal. lia.
  - exists []. split.
    + constructor. by apply indexOf_None.
    + simpl. f_equal. lia.
Qed.

(** With an empty query the loop never leaves: [indexOf] always hits and
    [pos] does not advance, whatever the number of rounds allowed. *)
Lemma countLoop_empty_query t : forall fuel count pos,
  countLoop fuel t [] count pos = Diverges.
Proof.
  induction fuel as [|fuel IH]; intros count pos; simpl; [done |].
  unfold indexOf. destruct (drop _ t); simpl; apply IH.
Qed.

Lemma nonOverlapping_earlier t q c c' ps :
  c' <= c -> nonOverlapping t q c ps -> nonOverlapping t q c' ps.
Proof.
  destruct ps as [|p ps]; simpl; [done |].
  intros Hc (Hp & Hocc & Hrest). split; [lia | done].
Qed.

Lemma scanFrom_nonOverlapping t q c ps :
  scanFrom t q c ps -> nonOverlapping t q c ps.
Proof. induction 1; simpl; auto. Qed.

(** No choice of non-overlapping occurrences has more members than the
    left-to-right scan finds. *)
Lemma scanFrom_most t q c ps :
  scanFrom t q c ps ->
  forall others, nonOverlapping t q c others -> length others <= length ps.
Proof.
  induction 1 as [c Hnone | c p ps Hge Hocc Hfirst Hscan IH];
    intros [|p1 others]; simpl; try lia.
  - intros (Hp1 & Hocc1 & _). by destruct (Hnone p1).
  - intros (Hp1 & Hocc1 & Hrest).
    assert (p <= p1).
    { destruct (decide (p <= p1)); [done |]. destruct (Hfirst p1); [lia | lia | done]. }
    apply le_n_S, IH.
    apply (nonOverlapping_earlier _ _ (p1 + length q)); [lia | done].
Qed.

#[global] Instance asciiHost_laws : HostLaws asciiHost.
Proof.
  split; simpl.
  - intros s. apply fmap_nil_inv.
  - done.
Qed.

Section Counting.
Context `{H : Host} `{!HostLaws H}.

Lemma toLowerCase_keeps_nonempty q : q ≠ [] -> toLowerCase q ≠ [].
Proof. intros Hq Hnil. by apply toLowerCase_nonempty in Hnil. Qed.

(** A non-empty query makes the count return. *)
Lemma findAllMatchesInText_returns text q :
  q ≠ [] -> exists n, findAllMatchesInText text q = Returns n.
Proof.
  intros Hq. unfold findAllMatchesInText.
  destruct (countLoop_scan (toLowerCase text) (toLowerCase q)
              (toLowerCase_keeps_nonempty q Hq)
              (S (length (toLowerCase text))) 0 0) as (ps & _ & Hrun);
    [lia | lia |].
  eauto.
Qed.

(** C2: for a non-empty query, [findAllMatchesInText] returns, and its
    count is the number of offsets a left-to-right scan of the lower-cased
    text visits for the lower-cased query, the cursor moving on by the
    length of the query after each hit. These occurrences do not overlap,
    and no set of non-overlapping occurrences is larger. For ["aaaa"] and
    ["aa"] the count is 2. *)
Theorem findAllMatchesInText_counts (text q : jsstring) :
  (q ≠ [] ->
   exists offsets,
     findAllMatchesInText text q = Returns (length offsets)
     ∧ scanFrom (toLowerCase text) (toLowerCase q) 0 offsets
     ∧ nonOverlapping (toLowerCase text) (toLowerCase q) 0 offsets
     ∧ forall others,
         nonOverlapping (toLowerCase text) (toLowerCase q) 0 others ->
         length others <= length offsets)
  ∧ findAllMatchesInText (js "aaaa") (js "aa") = Returns 2.
Proof.
  split.
  - intros Hq. unfold findAllMatchesInText.
    destruct (countLoop_scan (toLowerCase text) (toLowerCase q)
                (toLowerCase_keeps_nonempty q Hq)
                (S (length (toLowerCase text))) 0 0) as (ps & Hscan & Hrun);
      [lia | lia |].
    exists ps. split; [exact Hrun |]. split; [exact Hscan |].
    split; [by apply scanFrom_nonOverlapping | by apply scanFrom_most].
  - unfold findAllMatchesInText.
    rewrite !toLowerCase_ascii by (repeat constructor).
    reflexivity.
Qed.
End Counting.

#[global] Instance throwingHost_laws : HostLaws throwingHost.
Proof.
  split; simpl.
  - intros s. apply fmap_nil_inv.
  - done.
Qed.

(* ================================================================= *)
(** ** Properties of [setSessionSearchQuery] *)

Lemma isBlank_nil_false q : isBlank q = false -> q ≠ [].
Proof. by intros Hq ->. Qed.

Section Termination.
Context `{H : Host} `{!HostLaws H}.

Lemma collectMatches_returns this lowerQuery f allMatches u :
  lowerQuery ≠ [] ->
  exists allMatches', collectMatches this lowerQuery f allMatches u = Returns allMatches'.
Proof.
  intros Hq. unfold collectMatches.
  destruct (messageMap this !! u) as [i|]; [| eauto].
  destruct (messages this !! i) as [message|]; [| eauto].
  match goal with
  | |- context [findAllMatchesInText ?t lowerQuery] =>
      destruct (findAllMatchesInText_returns t lowerQuery Hq) as [n ->]
  end.
  simpl. eauto.
Qed.

Lemma forEachM_returns {A St : Type} (body : St -> A -> outcome St) xs :
  (forall s x, exists s', body s x = Returns s') ->
  forall s, exists s', forEachM body xs s = Returns s'.
Proof.
  intros Hbody. induction xs as [|x xs IH]; intros s; simpl; [eauto |].
  destruct (Hbody s x) as [s1 ->]. simpl. apply IH.
Qed.

(** With a query that is not blank, [search] returns or throws, and it
    throws only when the index lookup does. *)
Lemma search_returns_or_throws this q f :
  isBlank q = false ->
  (exists found, search this q f = Returns found)
  ∨ (search this q f = Throws
     ∧ indexSearch (indexFor this f) (toLowerCase q) 1000 true = None).
Proof.
  intros Hq. unfold search, indexFor.
  destruct (negb (isBuilt this) || negb (truthyString (trim q))); [eauto |].
  destruct (indexSearch _ _ _ _) as [fieldResults|]; [| by right].
  left.
  match goal with
  | |- context [forEachM ?body ?xs ?s0] =>
      assert (Hrun : exists allMatches, forEachM body xs s0 = Returns allMatches)
  end.
  - apply forEachM_returns. intros s x. apply collectMatches_returns.
    by apply toLowerCase_keeps_nonempty, isBlank_nil_false.
  - destruct Hrun as [allMatches ->]. simpl. eauto.
Qed.

(** C1: for every index, whatever snapshot it was built from, every query
    and every field, [search] comes back, and the list it returns obeys the
    ordering law: a match with a larger [messageIndex] stands before one
    with a smaller, and of two matches with the same [messageIndex] the one
    with the larger [matchIndex] stands first. It returns no list only
    when the FlexSearch lookup itself throws. *)
Theorem search_ordered (this : MessageSearchIndex) (q : jsstring)
    (f : SearchFilterType) :
  match search this q f with
  | Returns found => orderedMatches found
  | Throws => indexSearch (indexFor this f) (toLowerCase q) 1000 true = None
  | Diverges => False
  end.
Proof.
  destruct (isBlank q) eqn:Hq.
  - rewrite (search_blank this q f Hq).
    intros i j a b Hi. by rewrite lookup_nil in Hi.
  - destruct (search_returns_or_throws this q f Hq) as [[found Hs] | [Hs Hl]];
      rewrite Hs; [| exact Hl].
    by apply (search_returns_ordered this q f).
Qed.
End Termination.

Lemma rebuilt_matches (l : list SearchMatch) :
  (fun result =>
     {| messageUuid := messageUuid result;
        messageIndex := messageIndex result;
        matchIndex := matchIndex result;
        matchCount := matchCount result |}) <$> l = l.
Proof.
  induction l as [|m l IH]; [done |].
  rewrite fmap_cons, IH. by destruct m.
Qed.

Lemma nonblank_truthy q : isBlank q = false -> truthyString (trim q) = true.
Proof.
  intros Hq. destruct (truthyString (trim q)) eqn:E; [done |].
  apply trim_falsy_iff in E. congruence.
Qed.

Section SetQuery.
Context `{H : Host}.

(** What [setSessionSearchQuery] leaves, by the outcome of the search. *)
Lemma setSessionSearchQuery_nonblank index state q :
  isBlank q = false ->
  setSessionSearchQuery index state q
  = match search index q (filterType (sessionSearch state)) with
    | Returns found =>
        let kept := filter (indexInRange (storeMessages state)) found in
        Returns
          {| storeMessages := storeMessages state;
             sessionSearch :=
               {| query := q; matches := kept;
                  currentMatchIndex :=
                    if (0 <? Z.of_nat (length kept))%Z then 0%Z else (-1)%Z;
                  isSearching := false;
                  filterType := filterType (sessionSearch state);
                  results :=
                    omap (fun m => at_index (storeMessages state) (messageIndex m))
                         kept |} |}
    | Throws =>
        Returns
          {| storeMessages := storeMessages state;
             sessionSearch :=
               {| query := q; matches := []; currentMatchIndex := (-1)%Z;
                  isSearching := false;
                  filterType := filterType (sessionSearch state);
                  results := [] |} |}
    | Diverges => Diverges
    end.
Proof.
  intros Hq. unfold setSessionSearchQuery, searchMessages.
  rewrite (nonblank_truthy q Hq). cbn [negb].
  destruct (search index q (filterType (sessionSearch state))) as [found| |];
    [| done | done].
  cbv zeta. rewrite rebuilt_matches. reflexivity.
Qed.
End SetQuery.

Section SetQueryTotal.
Context `{H : Host} `{!HostLaws H}.

(** C5: for a query that is not blank, [setSessionSearchQuery] returns a
    state that keeps the query and the filter type and is no longer
    searching; its matches are the in-range matches of the search when the
    search returned, and its cursor is [0] if there are any and [-1] if
    there are none; when the search threw, there are no matches and the
    cursor is [-1]. *)
Theorem setSessionSearchQuery_settles (index : MessageSearchIndex)
    (state : AppStore) (q : jsstring) :
  isBlank q = false ->
  exists state',
    setSessionSearchQuery index state q = Returns state'
    ∧ query (sessionSearch state') = q
    ∧ isSearching (sessionSearch state') = false
    ∧ filterType (sessionSearch state') = filterType (sessionSearch state)
    ∧ (matches (sessionSearch state') ≠ [] -> cursorOf state' = 0%Z)
    ∧ (matches (sessionSearch state') = [] -> cursorOf state' = (-1)%Z)
    ∧ (forall found,
         search index q (filterType (sessionSearch state)) = Returns found ->
         matches (sessionSearch state')
         = filter (indexInRange (storeMessages state)) found)
    ∧ (search index q (filterType (sessionSearch state)) = Throws ->
       matches (sessionSearch state') = []
       ∧ cursorOf state' = (-1)%Z
       ∧ query (sessionSearch state') = q).
Proof.
  intros Hq. rewrite (setSessionSearchQuery_nonblank index state q Hq).
  destruct (search_returns_or_throws index q (filterType (sessionSearch state)) Hq)
    as [[found ->] | [-> _]].
  - eexists. split; [reflexivity |]. unfold cursorOf. cbn.
    repeat split; try done.
    + intros Hne. destruct (filter _ found); [done | by simpl].
    + by intros ->.
    + by intros found' [= <-].
  - eexists. split; [reflexivity |]. unfold cursorOf. cbn.
    repeat split; done.
Qed.
End SetQueryTotal.

(* ================================================================= *)
(** ** The cursor invariant *)

Section Invariant.
Context `{H : Host}.

Lemma setSessionSearchQuery_cursorValid index state q state' :
  setSessionSearchQuery index state q = Returns state' ->
  cursorValid (sessionSearch state').
Proof.
  destruct (isBlank q) eqn:Hq.
  - unfold setSessionSearchQuery. apply trim_falsy_iff in Hq. rewrite Hq.
    intros [= <-]. by left.
  - rewrite (setSessionSearchQuery_nonblank index state q Hq).
    destruct (search index q _) as [found| |]; [| | discriminate].
    + intros [= <-]. unfold cursorValid. cbn.
      destruct (Z.ltb_spec 0 (Z.of_nat (length (filter (indexInRange (storeMessages state)) found))));
        [right; lia | by left].
    + intros [= <-]. by left.
Qed.

Lemma goToNextMatch_cursorValid state :
  cursorValid (sessionSearch state) ->
  cursorValid (sessionSearch (goToNextMatch state)).
Proof.
  intros Hv. destruct (matches (sessionSearch state)) as [|m ms] eqn:E.
  - unfold goToNextMatch. by rewrite E.
  - assert (Hne : matches (sessionSearch state) ≠ []) by by rewrite E.
    pose proof (goToNextMatch_cursor state Hne) as Hc.
    pose proof (goToNextMatch_matches state) as Hm.
    unfold cursorValid, cursorOf, totalOf in *. rewrite Hm, Hc.
    assert (0 < Z.of_nat (length (matches (sessionSearch state))))%Z
      by (rewrite E; simpl length; lia).
    right. rewrite Z.rem_mod_nonneg by lia.
    apply Z.mod_pos_bound. lia.
Qed.

Lemma goToPrevMatch_cursorValid state :
  cursorValid (sessionSearch state) ->
  cursorValid (sessionSearch (goToPrevMatch state)).
Proof.
  intros Hv. unfold goToPrevMatch.
  destruct (Z.eqb_spec (Z.of_nat (length (matches (sessionSearch state)))) 0);
    [done |].
  unfold cursorValid in *. cbn. right.
  destruct (Z.leb_spec (currentMatchIndex (sessionSearch state)) 0); lia.
Qed.

Lemma goToMatchIndex_cursorValid state i :
  cursorValid (sessionSearch state) ->
  cursorValid (sessionSearch (goToMatchIndex state i)).
Proof.
  intros Hv. unfold goToMatchIndex.
  destruct (Z.ltb_spec i 0); [done |].
  destruct (Z.leb_spec (Z.of_nat (length (matches (sessionSearch state)))) i);
    [done |].
  unfold cursorValid. cbn. right. lia.
Qed.

Lemma run_cursorValid index state a state' :
  cursorValid (sessionSearch state) ->
  run index state a = Returns state' ->
  cursorValid (sessionSearch state').
Proof.
  intros Hv. destruct a; simpl.
  - apply setSessionSearchQuery_cursorValid.
  - intros [= <-]. by apply goToNextMatch_cursorValid.
  - intros [= <-]. by apply goToPrevMatch_cursorValid.
  - intros [= <-]. by apply goToMatchIndex_cursorValid.
  - intros [= <-]. by left.
  - intros [= <-]. by left.
Qed.

(** As long as [goToMatchIndex] is handed integers, the cursor stays [-1]
    or an index: in every state reached from the initial one by loading
    message lists and by [setSessionSearchQuery], [goToNextMatch],
    [goToPrevMatch], [goToMatchIndex] on an integer, [setSearchFilterType]
    and [clearSessionSearch] calls, [currentMatchIndex] is [-1] or
    satisfies [0 <= currentMatchIndex < matches.length]. *)
Lemma reachable_cursorValid (state : AppStore) :
  reachable state -> cursorValid (sessionSearch state).
Proof.
  induction 1 as [| state msgs _ IH | state index a state' _ IH Hrun].
  - by left.
  - exact IH.
  - by apply (run_cursorValid index state a).
Qed.
End Invariant.

(* ================================================================= *)
(** ** The properties at concrete inputs *)

Example hello_scenario :
  search (H := asciiHost) helloIndex (js "hello") Content = Returns helloMatches
  ∧ setSessionSearchQuery (H := asciiHost) helloIndex helloStore (js "hello")
    = Returns helloFound
  ∧ cursorOf (goToNextMatch helloFound) = 1%Z
  ∧ cursorOf (goToNextMatch (goToNextMatch helloFound)) = 0%Z.
Proof. repeat split; vm_compute; reflexivity. Qed.

Lemma search_ordered_witness :
  search (H := asciiHost) echoIndex (js "hello") Content = Returns echoMatches
  ∧ orderedMatches echoMatches.
Proof.
  assert (Hs : search (H := asciiHost) echoIndex (js "hello") Content
               = Returns echoMatches) by (vm_compute; reflexivity).
  split; [exact Hs |].
  pose proof (search_ordered (H := asciiHost) echoIndex (js "hello") Content)
    as Hord.
  rewrite Hs in Hord. exact Hord.
Defined.

Lemma findAllMatchesInText_counts_witness :
  js "aa" ≠ []
  ∧ exists offsets,
      findAllMatchesInText (H := asciiHost) (js "aaaa") (js "aa")
      = Returns (length offsets)
      ∧ scanFrom (js "aaaa") (js "aa") 0 offsets
      ∧ forall others,
          nonOverlapping (js "aaaa") (js "aa") 0 others ->
          length others <= length offsets.
Proof.
  assert (Hq : js "aa" ≠ []) by discriminate.
  split; [exact Hq |].
  destruct (findAllMatchesInText_counts (H := asciiHost) (js "aaaa") (js "aa"))
    as [Hgen _].
  destruct (Hgen Hq) as (offsets & Hrun & Hscan & _ & Hmost).
  exists offsets. split; [exact Hrun |]. split; [exact Hscan | exact Hmost].
Defined.

Lemma setSessionSearchQuery_settles_witness :
  isBlank (js "hello") = false
  ∧ (exists state',
       setSessionSearchQuery (H := asciiHost) helloIndex helloStore (js "hello")
       = Returns state'
       ∧ matches (sessionSearch state') = helloMatches
       ∧ cursorOf state' = 0%Z)
  ∧ (exists state',
       setSessionSearchQuery (H := throwingHost) helloIndex helloStore (js "hello")
       = Returns state'
       ∧ matches (sessionSearch state') = []
       ∧ cursorOf state' = (-1)%Z
       ∧ query (sessionSearch state') = js "hello").
Proof.
  assert (Hq : isBlank (js "hello") = false) by reflexivity.
  split; [exact Hq |]. split.
  - destruct (setSessionSearchQuery_settles (H := asciiHost)
                helloIndex helloStore (js "hello") Hq)
      as (state' & Hrun & _ & _ & _ & Hsome & _ & Hfound & _).
    assert (Hm : matches (sessionSearch state') = helloMatches).
    { rewrite (Hfound helloMatches); vm_compute; reflexivity. }
    exists state'. split; [exact Hrun |]. split; [exact Hm |].
    apply Hsome. rewrite Hm. discriminate.
  - destruct (setSessionSearchQuery_settles (H := throwingHost)
                helloIndex helloStore (js "hello") Hq)
      as (state' & Hrun & _ & _ & _ & _ & _ & _ & Hthrown).
    exists state'. split; [exact Hrun |].
    apply Hthrown. vm_compute; reflexivity.
Defined.

Lemma search_empty_when_unbuilt_or_blank_witness :
  isBlank (js "  ") = true
  ∧ search (H := asciiHost) helloIndex (js "  ") Content = Returns []
  ∧ search (H := asciiHost) (afterCalls (H := asciiHost) [CallClear; CallClear])
      (js "hello") Content = Returns []
  ∧ search (H := asciiHost)
      (afterCalls (H := asciiHost) ([CallBuild helloSnapshot] ++ [CallClear]))
      (js "hello") Content = Returns []
  ∧ search (H := asciiHost) (clear helloIndex) (js "hello") Content = Returns [].
Proof.
  assert (Hb : isBlank (js "  ") = true) by reflexivity.
  split; [exact Hb |].
  split.
  { exact (proj1 (search_empty_when_unbuilt_or_blank (H := asciiHost)
                    helloIndex (js "  ") Content [] []) Hb). }
  split.
  { exact (proj1 (proj2 (search_empty_when_unbuilt_or_blank (H := asciiHost)
                           helloIndex (js "hello") Content
                           [CallClear; CallClear] [])) eq_refl). }
  split.
  { exact (proj1 (proj2 (proj2 (search_empty_when_unbuilt_or_blank
                                  (H := asciiHost) helloIndex (js "hello")
                                  Content [CallBuild helloSnapshot] [])))). }
  exact (proj1 (proj2 (proj2 (proj2 (search_empty_when_unbuilt_or_blank
                                       (H := asciiHost) helloIndex (js "hello")
                                       Content [] []))))).
Defined.

(* ================================================================= *)
(** ** Further properties of the occurrence count *)

Lemma scanFrom_bound t q c ps :
  q ≠ [] -> c <= length t -> scanFrom t q c ps ->
  c + length ps * length q <= length t.
Proof.
  intros Hq Hc Hscan. induction Hscan as [c _ | c p ps Hge Hocc _ _ IH]; simpl.
  - lia.
  - destruct (occursAt_bound _ _ _ Hq Hocc) as [Hend _].
    specialize (IH Hend). lia.
Qed.

Section CountEdges.
Context `{H : Host}.

(** The count of a text against a lowered query that is not empty. *)
Lemma findAllMatchesInText_scan text q :
  toLowerCase q ≠ [] ->
  exists ps,
    scanFrom (toLowerCase text) (toLowerCase q) 0 ps
    ∧ findAllMatchesInText text q = Returns (length ps).
Proof.
  intros Hq. unfold findAllMatchesInText.
  destruct (countLoop_scan (toLowerCase text) (toLowerCase q) Hq
              (S (length (toLowerCase text))) 0 0) as (ps & Hscan & Hrun);
    [lia | lia |].
  exists ps. by split.
Qed.

Lemma findAllMatchesInText_diverges_iff_holds (text q : jsstring) :
  (forall fuel t count pos, countLoop fuel t [] count pos = Diverges)
  ∧ (findAllMatchesInText text q = Diverges ↔ toLowerCase q = []).
Proof.
  split; [intros fuel t; apply countLoop_empty_query |].
  split.
  - intros Hd. destruct (decide (toLowerCase q = [])) as [|Hq]; [done |].
    destruct (findAllMatchesInText_scan text q Hq) as (ps & _ & Hrun).
    congruence.
  - intros Hq. unfold findAllMatchesInText. rewrite Hq.
    apply countLoop_empty_query.
Qed.

(** X1: [findAllMatchesInText] fails to return exactly when the lowered query
    is the empty string: the loop then finds a match at [pos] in every
    round and never moves on, however many rounds it is given. For every
    other query the call returns a count; it never throws. *)
Theorem findAllMatchesInText_diverges_iff (text q : jsstring) :
  (forall fuel t count pos, countLoop fuel t [] count pos = Diverges)
  ∧ (findAllMatchesInText text q = Diverges ↔ toLowerCase q = [])
  ∧ (toLowerCase q ≠ [] -> exists n, findAllMatchesInText text q = Returns n)
  ∧ findAllMatchesInText text q ≠ Throws.
Proof.
  destruct (findAllMatchesInText_diverges_iff_holds text q) as [Hloop Hiff].
  split; [exact Hloop |]. split; [exact Hiff |].
  assert (Hret : toLowerCase q ≠ [] ->
                 exists n, findAllMatchesInText text q = Returns n).
  { intros Hq. destruct (findAllMatchesInText_scan text q Hq) as (ps & _ & Hrun).
    eauto. }
  split; [exact Hret |].
  destruct (decide (toLowerCase q = [])) as [Hq | Hq].
  - apply Hiff in Hq. congruence.
  - destruct (Hret Hq) as [n Hn]. congruence.
Qed.

(** X2: The count is [0] exactly when the lowered query occurs nowhere in the
    lowered text. *)
Theorem findAllMatchesInText_zero_iff (text q : jsstring) :
  findAllMatchesInText text q = Returns 0
  ↔ forall p, ¬ occursAt (toLowerCase text) (toLowerCase q) p.
Proof.
  destruct (decide (toLowerCase q = [])) as [Hq | Hq].
  - split.
    + intros Hr.
      assert (Hd : findAllMatchesInText text q = Diverges)
        by by apply findAllMatchesInText_diverges_iff_holds.
      congruence.
    + intros Hnone. destruct (Hnone 0). unfold occursAt. rewrite Hq.
      apply prefix_nil.
  - destruct (findAllMatchesInText_scan text q Hq) as (ps & Hscan & Hrun).
    rewrite Hrun. split.
    + intros [= Hlen]. destruct ps; [| discriminate].
      inversion Hscan as [c Hnone |]. intros p. apply Hnone. lia.
    + intros Hnone. destruct ps as [|p ps]; [done |].
      inversion Hscan as [| c p' ps' _ Hocc]. by destruct (Hnone p).
Qed.

(** X3: A returned count times the length of the lowered query fits into the
    lowered text: there are at most [length text / length query] matches
    in a message. *)
Theorem findAllMatchesInText_bound (text q : jsstring) (n : nat) :
  findAllMatchesInText text q = Returns n ->
  n * length (toLowerCase q) <= length (toLowerCase text)
  ∧ 0 < length (toLowerCase q).
Proof.
  intros Hr.
  destruct (decide (toLowerCase q = [])) as [Hq | Hq].
  - assert (Hd : findAllMatchesInText text q = Diverges)
      by by apply findAllMatchesInText_diverges_iff_holds.
    congruence.
  - destruct (findAllMatchesInText_scan text q Hq) as (ps & Hscan & Hrun).
    rewrite Hrun in Hr. injection Hr as <-.
    pose proof (scanFrom_bound _ _ 0 ps Hq (Nat.le_0_l _) Hscan).
    split; [lia |]. destruct (toLowerCase q); [done | simpl; lia].
Qed.
End CountEdges.

Lemma findAllMatchesInText_bound_witness :
  findAllMatchesInText (H := asciiHost) (js "Hello, hello") (js "LL") = Returns 2
  ∧ 2 * 2 <= 12.
Proof.
  assert (Hr : findAllMatchesInText (H := asciiHost) (js "Hello, hello") (js "LL")
               = Returns 2) by (vm_compute; reflexivity).
  split; [exact Hr |].
  exact (proj1 (findAllMatchesInText_bound (H := asciiHost)
                  (js "Hello, hello") (js "LL") 2 Hr)).
Defined.

(* ================================================================= *)
(** ** Properties of the tool-id extractor *)

Lemma toolId_loop_app items : forall ids,
  foldl (fun ids item =>
           match item with
           | VObject o =>
               let ids :=
                 if hasType o "tool_use" then pushStringProperty ids o "id"
                 else ids in
               if hasType o "tool_result"
               then pushStringProperty ids o "tool_use_id"
               else ids
           | _ => ids
           end) ids items
  = ids ++ (items ≫= blockToolIds).
Proof.
  induction items as [|item items IH]; intros ids; simpl.
  - by rewrite app_nil_r.
  - rewrite IH. destruct item; simpl; rewrite ?app_nil_r; try done.
    rewrite !pushStringProperty_app.
    destruct (hasType props "tool_use"), (hasType props "tool_result");
      rewrite ?pushStringProperty_app, ?app_nil_r, <- ?app_assoc; done.
Qed.

Lemma extractToolIds_description_holds (message : ClaudeMessage) :
  extractToolIds message = join (js " ") (toolIdTexts message).
Proof.
  unfold extractToolIds, toolIdTexts. f_equal.
  destruct (content message) as [| |b|n|s|items|o];
    destruct (toolUse message) as [| |b'|n'|s'|items'|o'];
    rewrite ?toolId_loop_app, ?pushStringProperty_app, ?app_nil_r; done.
Qed.

(** X4: [extractToolIds] is the space-joined list of: for each record block of
    an array content, its [id] string if the block is typed [tool_use] and
    its [tool_use_id] string if it is typed [tool_result]; then the [id]
    string of a record [toolUse]. Nothing else of the message enters. *)
Theorem extractToolIds_description (message : ClaudeMessage) :
  extractToolIds message = join (js " ") (toolIdTexts message).
Proof. apply extractToolIds_description_holds. Qed.

(* ================================================================= *)
(** ** Properties of [build] *)

Section BuildProperties.
Context `{H : Host}.

Lemma forEachIndexed_messages msgs : forall i this,
  messages (forEachIndexed buildMessage msgs i this) = messages this
  ∧ isBuilt (forEachIndexed buildMessage msgs i this) = isBuilt this.
Proof.
  induction msgs as [|m msgs IH]; intros i this; simpl; [done |].
  destruct (IH (S i) (buildMessage this m i)) as [-> ->]. done.
Qed.

(** A uuid none of the messages carries keeps its entry. *)
Lemma forEachIndexed_messageMap_other msgs u : forall i this,
  (forall m, m ∈ msgs -> uuid m ≠ u) ->
  messageMap (forEachIndexed buildMessage msgs i this) !! u = messageMap this !! u.
Proof.
  induction msgs as [|m msgs IH]; intros i this Hother; simpl; [done |].
  rewrite IH.
  - simpl. apply lookup_insert_ne. apply Hother. by left.
  - intros m' Hm'. apply Hother. by right.
Qed.

(** The last message with a uuid decides the entry of that uuid. *)
Lemma forEachIndexed_messageMap_last msgs : forall i this j m,
  msgs !! j = Some m ->
  lastWithUuid msgs j (uuid m) ->
  messageMap (forEachIndexed buildMessage msgs i this) !! uuid m = Some (i + j).
Proof.
  induction msgs as [|x msgs IH]; intros i this j m Hj Hlast; [done |].
  destruct j as [|j]; simpl in *.
  - injection Hj as ->.
    rewrite forEachIndexed_messageMap_other.
    + simpl. rewrite lookup_insert_eq. f_equal. lia.
    + intros m' Hm' Heq. apply list_elem_of_lookup in Hm' as [j' Hj'].
      apply (Hlast (S j') m'); [lia | done | done].
  - rewrite (IH (S i) _ j m Hj); [f_equal; lia |].
    intros j' m' Hlt Hj'. apply (Hlast (S j') m'); [lia | done].
Qed.

(** An entry is an old one or points at a message with that uuid. *)
Lemma forEachIndexed_messageMap_Some msgs u k : forall i this,
  messageMap (forEachIndexed buildMessage msgs i this) !! u = Some k ->
  messageMap this !! u = Some k
  ∨ exists j m, msgs !! j = Some m ∧ uuid m = u ∧ k = i + j.
Proof.
  induction msgs as [|x msgs IH]; intros i this; simpl; [by left |].
  intros Hk. apply IH in Hk as [Hk | (j & m & Hj & Hu & ->)].
  - simpl in Hk. destruct (decide (uuid x = u)) as [Heq | Hne].
    + rewrite Heq, lookup_insert_eq in Hk. injection Hk as <-.
      right. exists 0, x. split; [done |]. split; [done | lia].
    + rewrite lookup_insert_ne in Hk by done. by left.
  - right. exists (S j), m. split; [done |]. split; [done | lia].
Qed.

Lemma build_messageMap_resolves_holds (this : MessageSearchIndex)
    (msgs : list ClaudeMessage) (u : jsstring) (k : nat) :
  messages (build this msgs) = msgs
  ∧ isBuilt (build this msgs) = true
  ∧ (messageMap (build this msgs) !! u = Some k ->
     exists m, msgs !! k = Some m ∧ uuid m = u).
Proof.
  unfold build. cbn [messages isBuilt messageMap].
  split; [| split; [done |]].
  - by destruct (forEachIndexed_messages msgs 0
                   {| contentIndex := contentIndex (clear this);
                      toolIdIndex := toolIdIndex (clear this);
                      messageMap := messageMap (clear this);
                      messages := msgs; isBuilt := isBuilt (clear this) |})
      as [-> _].
  - intros Hk. apply forEachIndexed_messageMap_Some in Hk
      as [Hk | (j & m & Hj & Hu & ->)].
    + simpl in Hk. by rewrite lookup_empty in Hk.
    + exists m. by split.
Qed.

(** X5: After [build(msgs)] the index holds the snapshot, is marked built, and
    every entry of [messageMap] resolves: the uuid [u] is mapped to a
    position of the snapshot whose message carries [u]. *)
Theorem build_messageMap_resolves (this : MessageSearchIndex)
    (msgs : list ClaudeMessage) (u : jsstring) (k : nat) :
  messages (build this msgs) = msgs
  ∧ isBuilt (build this msgs) = true
  ∧ (messageMap (build this msgs) !! u = Some k ->
     exists m, msgs !! k = Some m ∧ uuid m = u).
Proof. apply build_messageMap_resolves_holds. Qed.

(** X6: The position of a message is what its uuid is mapped to, provided no
    later message of the snapshot carries the same uuid; so with pairwise
    distinct uuids looking up the uuid of message [j] gives back [j]. *)
Theorem build_messageMap_roundtrip (this : MessageSearchIndex)
    (msgs : list ClaudeMessage) (j : nat) (m : ClaudeMessage) :
  msgs !! j = Some m ->
  (lastWithUuid msgs j (uuid m) ->
   messageMap (build this msgs) !! uuid m = Some j)
  ∧ (NoDup (uuid <$> msgs) ->
     messageMap (build this msgs) !! uuid m = Some j).
Proof.
  intros Hj.
  assert (Hlast : lastWithUuid msgs j (uuid m) ->
                  messageMap (build this msgs) !! uuid m = Some j).
  { intros Hl. unfold build. cbn [messageMap].
    by rewrite (forEachIndexed_messageMap_last msgs 0 _ j m Hj Hl). }
  split; [exact Hlast |].
  intros Hnd. apply Hlast. intros j' m' Hlt Hj' Heq.
  assert (Hi : j = j'); [| lia].
  apply (NoDup_lookup (uuid <$> msgs) j j' (uuid m)); [done | |].
  - by rewrite list_lookup_fmap, Hj.
  - rewrite list_lookup_fmap, Hj'. simpl. by rewrite Heq.
Qed.

(** When a uuid repeats, the later message wins. *)
Example build_messageMap_repeated :
  messageMap (build newMessageSearchIndex repeatedSnapshot) !! js "a" = Some 2.
Proof. vm_compute. reflexivity. Qed.
End BuildProperties.

Lemma build_messageMap_resolves_witness :
  messageMap helloIndex !! js "m1" = Some 1
  ∧ exists m, helloSnapshot !! 1 = Some m ∧ uuid m = js "m1".
Proof.
  assert (Hk : messageMap (build (H := asciiHost) newMessageSearchIndex helloSnapshot)
               !! js "m1" = Some 1) by (vm_compute; reflexivity).
  split; [exact Hk |].
  exact (proj2 (proj2 (build_messageMap_resolves (H := asciiHost)
                         newMessageSearchIndex helloSnapshot (js "m1") 1)) Hk).
Defined.

Lemma build_messageMap_roundtrip_witness :
  helloSnapshot !! 2 = Some (textMessage "m2" "goodbye")
  ∧ messageMap helloIndex !! js "m2" = Some 2.
Proof.
  assert (Hj : helloSnapshot !! 2 = Some (textMessage "m2" "goodbye"))
    by reflexivity.
  split; [exact Hj |].
  apply (proj2 (build_messageMap_roundtrip (H := asciiHost)
                  newMessageSearchIndex helloSnapshot 2 _ Hj)).
  apply (bool_decide_unpack (NoDup (uuid <$> helloSnapshot))).
  vm_compute. exact I.
Defined.


Section BuildDocuments.
Context `{H : Host}.

Lemma truthy_trim_blank t : truthyString (trim t) = negb (isBlank t).
Proof.
  destruct (isBlank t) eqn:B; simpl.
  - by apply trim_falsy_iff.
  - by apply nonblank_truthy.
Qed.

Lemma buildMessage_indexFor this x i f d :
  d ∈ indexFor (buildMessage this x i) f
  ↔ d ∈ indexFor this f
    ∨ (isBlank (fieldText f x) = false ∧ d = indexedDocument f i x).
Proof.
  unfold buildMessage, indexedDocument, push.
  destruct f; cbn [indexFor contentIndex toolIdIndex fieldText];
    rewrite truthy_trim_blank.
  - destruct (isBlank (extractSearchableText x)); simpl.
    + split; [by left | by intros [? | [? _]]].
    + rewrite elem_of_app, elem_of_cons, elem_of_nil. split.
      * intros [? | [-> | []]]; [by left | by right].
      * intros [? | [_ ->]]; [by left | right; by left].
  - destruct (isBlank (extractToolIds x)); simpl.
    + split; [by left | by intros [? | [? _]]].
    + rewrite elem_of_app, elem_of_cons, elem_of_nil. split.
      * intros [? | [-> | []]]; [by left | by right].
      * intros [? | [_ ->]]; [by left | right; by left].
Qed.

Lemma forEachIndexed_indexFor msgs f d : forall i this,
  d ∈ indexFor (forEachIndexed buildMessage msgs i this) f
  ↔ d ∈ indexFor this f
    ∨ exists j m,
        msgs !! j = Some m ∧ isBlank (fieldText f m) = false
        ∧ d = indexedDocument f (i + j) m.
Proof.
  induction msgs as [|x msgs IH]; intros i this; simpl.
  - split; [by left | intros [? | (j & m & Hj & _)]; done].
  - rewrite IH, buildMessage_indexFor. split.
    + intros [[Hd | [Hb ->]] | (j & m & Hj & Hb & ->)].
      * by left.
      * right. exists 0, x. rewrite Nat.add_0_r. done.
      * right. exists (S j), m. split; [done |]. split; [done |].
        f_equal. lia.
    + intros [Hd | (j & m & Hj & Hb & ->)]; [by left; left |].
      destruct j as [|j]; simpl in Hj.
      * injection Hj as ->. left. right. rewrite Nat.add_0_r. done.
      * right. exists j, m. split; [done |]. split; [done |]. f_equal. lia.
Qed.

Lemma build_documents_member (this : MessageSearchIndex) (msgs : list ClaudeMessage)
    (f : SearchFilterType) (d : SearchDocument) :
  d ∈ indexFor (build this msgs) f
  ↔ exists j m,
      msgs !! j = Some m ∧ isBlank (fieldText f m) = false
      ∧ d = indexedDocument f j m.
Proof.
  unfold build.
  transitivity
    (d ∈ indexFor (forEachIndexed buildMessage msgs 0
                     {| contentIndex := contentIndex (clear this);
                        toolIdIndex := toolIdIndex (clear this);
                        messageMap := messageMap (clear this);
                        messages := msgs; isBuilt := isBuilt (clear this) |}) f).
  { by destruct f. }
  rewrite forEachIndexed_indexFor. split.
  - intros [Hd | Hd]; [| done]. destruct f; simpl in Hd; by apply elem_of_nil in Hd.
  - intros Hd. by right.
Qed.

Lemma buildMessage_documents this x i f :
  indexFor (buildMessage this x i) f
  = indexFor this f
    ++ (if isBlank (fieldText f x) then [] else [indexedDocument f i x]).
Proof.
  unfold buildMessage, indexedDocument, push.
  destruct f; cbn [indexFor contentIndex toolIdIndex fieldText];
    rewrite truthy_trim_blank.
  - destruct (isBlank (extractSearchableText x)); simpl; [by rewrite app_nil_r | done].
  - destruct (isBlank (extractToolIds x)); simpl; [by rewrite app_nil_r | done].
Qed.

Lemma forEachIndexed_documents msgs f : forall i this,
  indexFor (forEachIndexed buildMessage msgs i this) f
  = indexFor this f ++ documentsFrom f i msgs.
Proof.
  induction msgs as [|x msgs IH]; intros i this; simpl.
  - by rewrite app_nil_r.
  - by rewrite IH, buildMessage_documents, <- app_assoc.
Qed.

(** How many of the documents carry the position [j]. *)
Lemma documentsFrom_count msgs f j : forall i,
  length (filter (fun d => doc_messageIndex d = j) (documentsFrom f i msgs))
  = if decide (i <= j) then
      match msgs !! (j - i) with
      | Some m => if isBlank (fieldText f m) then 0 else 1
      | None => 0
      end
    else 0.
Proof.
  induction msgs as [|m rest IH]; intros i; simpl.
  - by destruct (decide (i <= j)).
  - rewrite filter_app, length_app, IH.
    assert (Hhead :
      length (filter (fun d => doc_messageIndex d = j)
                (if isBlank (fieldText f m) then []
                 else [indexedDocument f i m]))
      = if decide (i = j) then (if isBlank (fieldText f m) then 0 else 1) else 0).
    { destruct (isBlank (fieldText f m)); [by destruct (decide (i = j)) |].
      rewrite filter_cons. simpl.
      destruct (decide (i = j)); done. }
    rewrite Hhead.
    destruct (decide (i = j)) as [-> | Hne].
    + rewrite Nat.sub_diag. simpl.
      destruct (decide (S j <= j)); [lia |].
      destruct (decide (j <= j)); [lia | lia].
    + destruct (decide (i <= j)) as [Hle | Hgt].
      * destruct (decide (S i <= j)); [| lia].
        replace (j - i) with (S (j - S i)) by lia. done.
      * destruct (decide (S i <= j)); [lia | done].
Qed.

(** X7: After [build(msgs)] the index of a field has been given, in the order
    of the snapshot, exactly one document for each message whose text for
    that field is not blank and none for the others: the documents are the
    list [documentsFrom], the number of documents that carry a position is
    [1] for a message with text and [0] for a blank one, and each carries
    the uuid of the message, its position and the lower-cased text. *)
Theorem build_documents (this : MessageSearchIndex) (msgs : list ClaudeMessage)
    (f : SearchFilterType) :
  indexFor (build this msgs) f = documentsFrom f 0 msgs
  ∧ (forall j,
       length (filter (fun d => doc_messageIndex d = j)
                      (indexFor (build this msgs) f))
       = match msgs !! j with
         | Some m => if isBlank (fieldText f m) then 0 else 1
         | None => 0
         end)
  ∧ (forall d,
       d ∈ indexFor (build this msgs) f
       ↔ exists j m,
           msgs !! j = Some m ∧ isBlank (fieldText f m) = false
           ∧ d = indexedDocument f j m).
Proof.
  assert (Heq : indexFor (build this msgs) f = documentsFrom f 0 msgs).
  { unfold build.
    transitivity
      (indexFor (forEachIndexed buildMessage msgs 0
                   {| contentIndex := contentIndex (clear this);
                      toolIdIndex := toolIdIndex (clear this);
                      messageMap := messageMap (clear this);
                      messages := msgs; isBuilt := isBuilt (clear this) |}) f).
    { by destruct f. }
    rewrite forEachIndexed_documents. by destruct f. }
  split; [exact Heq |]. split.
  - intros j. rewrite Heq, documentsFrom_count.
    destruct (decide (0 <= j)); [| lia]. by rewrite Nat.sub_0_r.
  - intros d. apply build_documents_member.
Qed.
End BuildDocuments.

(* ================================================================= *)
(** ** The shape of what [search] returns *)

Lemma push_loop {A B : Type} (g : B -> A) (l : list B) : forall acc,
  foldl (fun acc k => push acc (g k)) acc l = acc ++ (g <$> l).
Proof.
  induction l as [|k l IH]; intros acc; simpl.
  - by rewrite app_nil_r.
  - rewrite IH. unfold push. by rewrite <- app_assoc.
Qed.

Lemma Set_add_NoDup set x : NoDup set -> NoDup (Set_add set x).
Proof.
  intros Hnd. unfold Set_add, push. destruct (decide (x ∈ set)); [done |].
  apply NoDup_app. split; [done |]. split; [| apply NoDup_singleton].
  intros y Hy Hx. apply list_elem_of_singleton in Hx as ->. done.
Qed.

Lemma matchedUuids_NoDup (fieldResults : list FieldResult) : forall set,
  NoDup set ->
  NoDup (foldl (fun matchedUuids fieldResult =>
                  match result fieldResult with
                  | Some items =>
                      foldl (fun matchedUuids item =>
                               Set_add matchedUuids (extractUuidFromResult item))
                            matchedUuids items
                  | None => matchedUuids
                  end) set fieldResults).
Proof.
  induction fieldResults as [|fr frs IH]; intros set Hnd; simpl; [done |].
  apply IH. destruct (result fr) as [items|]; [| done].
  clear IH. revert set Hnd.
  induction items as [|item items IHi]; intros set Hnd; simpl; [done |].
  by apply IHi, Set_add_NoDup.
Qed.

Lemma elem_of_occurrenceMatches x u i n :
  x ∈ occurrenceMatches u i n
  ↔ exists k, k < n
      ∧ x = {| messageUuid := u; messageIndex := Z.of_nat i;
               matchIndex := Z.of_nat k; matchCount := Z.of_nat n |}.
Proof.
  unfold occurrenceMatches. rewrite list_elem_of_fmap. split.
  - intros (k & -> & Hk). apply elem_of_seq in Hk. exists k. split; [lia | done].
  - intros (k & Hk & ->). exists k. split; [done |]. apply elem_of_seq. lia.
Qed.

Lemma occurrenceMatches_NoDup u i n : NoDup (occurrenceMatches u i n).
Proof.
  unfold occurrenceMatches. apply NoDup_fmap_2_strong; [| apply NoDup_seq].
  intros k k' _ _ [= Hk]. lia.
Qed.

Section SearchStructure.
Context `{H : Host}.

Lemma collectMatches_block this lowerQuery f acc u res :
  collectMatches this lowerQuery f acc u = Returns res ->
  exists block, blockOf this lowerQuery f block u ∧ res = acc ++ block.
Proof.
  unfold collectMatches, blockOf.
  destruct (messageMap this !! u) as [i|] eqn:Hi.
  2: { intros [= <-]. exists []. rewrite app_nil_r. split; [by left | done]. }
  destruct (messages this !! i) as [m|] eqn:Hm.
  2: { intros [= <-]. exists []. rewrite app_nil_r. split; [by left | done]. }
  fold (fieldText f m).
  destruct (findAllMatchesInText (fieldText f m) lowerQuery) as [n| |] eqn:Hn;
    simpl; [| discriminate | discriminate].
  intros [= <-]. exists (occurrenceMatches u i n). split.
  - right. by exists i, m, n.
  - unfold occurrenceMatches. apply push_loop.
Qed.

Lemma forEachM_blocks this lowerQuery f us : forall acc res,
  forEachM (collectMatches this lowerQuery f) us acc = Returns res ->
  exists blocks,
    Forall2 (blockOf this lowerQuery f) blocks us ∧ res = acc ++ mjoin blocks.
Proof.
  induction us as [|u us IH]; intros acc res; simpl.
  - intros [= <-]. exists []. split; [constructor | by rewrite app_nil_r].
  - destruct (collectMatches this lowerQuery f acc u) as [acc'| |] eqn:Hc;
      simpl; [| discriminate | discriminate].
    intros Hrest. apply collectMatches_block in Hc as (block & Hb & ->).
    apply IH in Hrest as (blocks & Hbs & ->).
    exists (block :: blocks). split; [by constructor |].
    simpl. by rewrite <- app_assoc.
Qed.

(** What [search] returns is a rearrangement of the blocks of pairwise
    distinct candidate uuids. *)
Lemma search_structure this q f found :
  search this q f = Returns found ->
  exists us blocks,
    NoDup us
    ∧ Forall2 (blockOf this (toLowerCase q) f) blocks us
    ∧ found ≡ₚ mjoin blocks.
Proof.
  unfold search.
  destruct (negb (isBuilt this) || negb (truthyString (trim q))).
  - intros [= <-]. exists [], []. split; [constructor |]. split; [constructor | done].
  - destruct (indexSearch _ _ _ _) as [fieldResults|]; [| discriminate].
    match goal with
    | |- context [forEachM _ ?us _] => set (matchedUuids := us)
    end.
    destruct (forEachM _ matchedUuids []) as [allMatches| |] eqn:Hrun;
      simpl; [| discriminate | discriminate].
    intros [= <-]. apply forEachM_blocks in Hrun as (blocks & Hbs & ->).
    exists matchedUuids, blocks. split.
    + apply matchedUuids_NoDup. constructor.
    + split; [done |]. simpl. apply Array_sort_perm.
Qed.

Lemma blockOf_elem this lowerQuery f block u x :
  blockOf this lowerQuery f block u -> x ∈ block ->
  messageUuid x = u ∧ matchResolves this lowerQuery f x
  ∧ exists i n, block = occurrenceMatches u i n ∧ matchCount x = Z.of_nat n.
Proof.
  intros [-> | (i & m & n & Hi & Hm & Hn & ->)] Hx; [by apply elem_of_nil in Hx |].
  apply elem_of_occurrenceMatches in Hx as (k & Hk & ->). simpl.
  split; [done |]. split.
  - exists i, m, n. simpl. repeat split; try done; lia.
  - by exists i, n.
Qed.

Lemma blocks_elem this lowerQuery f blocks us x :
  Forall2 (blockOf this lowerQuery f) blocks us ->
  x ∈ mjoin blocks ->
  exists block u,
    block ∈ blocks ∧ u ∈ us ∧ blockOf this lowerQuery f block u ∧ x ∈ block.
Proof.
  induction 1 as [|block u blocks us Hb Hbs IH]; simpl.
  - intros Hx. by apply elem_of_nil in Hx.
  - rewrite elem_of_app. intros [Hx | Hx].
    + exists block, u. repeat split; try done; by left.
    + destruct (IH Hx) as (b' & u' & Hb' & Hu' & Hbl & Hx').
      exists b', u'. repeat split; try done; by right.
Qed.
End SearchStructure.

Lemma filter_none {A : Type} (P : A -> Prop) `{!forall x, Decision (P x)} (l : list A) :
  (forall y, y ∈ l -> ¬ P y) -> filter P l = [].
Proof.
  induction l as [|y l IH]; intros Hall; [done |].
  rewrite filter_cons_False by (apply Hall; by left).
  apply IH. intros z Hz. apply Hall. by right.
Qed.

Lemma filter_all {A : Type} (P : A -> Prop) `{!forall x, Decision (P x)} (l : list A) :
  (forall y, y ∈ l -> P y) -> filter P l = l.
Proof.
  induction l as [|y l IH]; intros Hall; [done |].
  rewrite filter_cons_True by (apply Hall; by left).
  f_equal. apply IH. intros z Hz. apply Hall. by right.
Qed.

Section SearchResults.
Context `{H : Host}.

Lemma blocks_filter_other this lowerQuery f blocks us u :
  Forall2 (blockOf this lowerQuery f) blocks us ->
  u ∉ us ->
  filter (fun y => messageUuid y = u) (mjoin blocks) = [].
Proof.
  intros Hbs Hu. apply filter_none. intros y Hy Heq.
  destruct (blocks_elem _ _ _ _ _ _ Hbs Hy) as (b & u' & _ & Hu' & Hb & Hyb).
  destruct (blockOf_elem _ _ _ _ _ _ Hb Hyb) as [Hyu _]. congruence.
Qed.

(** The matches of the message of [x] among the blocks are the whole
    block of that message. *)
Lemma blocks_filter_same this lowerQuery f blocks us :
  Forall2 (blockOf this lowerQuery f) blocks us ->
  NoDup us ->
  forall x, x ∈ mjoin blocks ->
  exists i n,
    filter (fun y => messageUuid y = messageUuid x) (mjoin blocks)
    = occurrenceMatches (messageUuid x) i n
    ∧ matchCount x = Z.of_nat n ∧ messageIndex x = Z.of_nat i.
Proof.
  induction 1 as [|block u blocks us Hb Hbs IH]; intros Hnd x; simpl.
  - intros Hx. by apply elem_of_nil in Hx.
  - apply NoDup_cons in Hnd as [Hu Hnd].
    rewrite elem_of_app, filter_app. intros [Hx | Hx].
    + destruct (blockOf_elem _ _ _ _ _ _ Hb Hx) as (Hxu & _ & i & n & -> & Hn).
      exists i, n. rewrite Hxu.
      rewrite (blocks_filter_other _ _ _ _ _ _ Hbs Hu), app_nil_r.
      split.
      * apply filter_all. intros y Hy.
        apply elem_of_occurrenceMatches in Hy as (k & _ & ->). done.
      * split; [done |].
        apply elem_of_occurrenceMatches in Hx as (k & _ & ->). done.
    + destruct (IH Hnd x Hx) as (i & n & Hf & Hn & Hi).
      exists i, n. rewrite Hf. split; [| done].
      rewrite filter_none; [done |].
      intros y Hy Heq.
      destruct (blockOf_elem _ _ _ _ _ _ Hb Hy) as [Hyu _].
      destruct (blocks_elem _ _ _ _ _ _ Hbs Hx) as (b' & u' & _ & Hu' & Hb' & Hxb).
      destruct (blockOf_elem _ _ _ _ _ _ Hb' Hxb) as [Hxu _].
      congruence.
Qed.

Lemma blocks_NoDup this lowerQuery f blocks us :
  Forall2 (blockOf this lowerQuery f) blocks us ->
  NoDup us -> NoDup (mjoin blocks).
Proof.
  induction 1 as [|block u blocks us Hb Hbs IH]; intros Hnd; simpl.
  - constructor.
  - apply NoDup_cons in Hnd as [Hu Hnd]. apply NoDup_app.
    split; [| split; [| by apply IH]].
    + destruct Hb as [-> | (i & m & n & _ & _ & _ & ->)];
        [constructor | apply occurrenceMatches_NoDup].
    + intros y Hy Hy'.
      destruct (blockOf_elem _ _ _ _ _ _ Hb Hy) as [Hyu _].
      destruct (blocks_elem _ _ _ _ _ _ Hbs Hy') as (b' & u' & _ & Hu' & Hb' & Hyb).
      destruct (blockOf_elem _ _ _ _ _ _ Hb' Hyb) as [Hyu' _].
      congruence.
Qed.

Lemma search_matches_resolve_holds (this : MessageSearchIndex) (q : jsstring)
    (f : SearchFilterType) (found : list SearchMatch) (x : SearchMatch) :
  search this q f = Returns found ->
  x ∈ found ->
  matchResolves this (toLowerCase q) f x.
Proof.
  intros Hs Hx.
  destruct (search_structure this q f found Hs) as (us & blocks & _ & Hbs & Hp).
  rewrite Hp in Hx.
  destruct (blocks_elem _ _ _ _ _ _ Hbs Hx) as (b & u & _ & _ & Hb & Hxb).
  by destruct (blockOf_elem _ _ _ _ _ _ Hb Hxb) as (_ & Hr & _).
Qed.

(** X8: Every match [search] returns resolves through the index: its uuid is
    mapped to its [messageIndex], a message is stored at that position,
    [matchCount] is the occurrence count of the lower-cased query in the
    text of that message for the field, and
    [0 <= matchIndex < matchCount]. *)
Theorem search_matches_resolve (this : MessageSearchIndex) (q : jsstring)
    (f : SearchFilterType) (found : list SearchMatch) (x : SearchMatch) :
  search this q f = Returns found ->
  x ∈ found ->
  matchResolves this (toLowerCase q) f x.
Proof. apply search_matches_resolve_holds. Qed.

(** X9: The returned list has every occurrence of a matched message once: with
    a match [x] it holds the match of the same message for each occurrence
    number below [matchCount], the number of its entries for that message
    is [matchCount], and no entry is repeated. *)
Theorem search_matches_complete (this : MessageSearchIndex) (q : jsstring)
    (f : SearchFilterType) (found : list SearchMatch) (x : SearchMatch) :
  search this q f = Returns found ->
  x ∈ found ->
  (forall k, (0 <= k < matchCount x)%Z -> withMatchIndex x k ∈ found)
  ∧ Z.of_nat (length (filter (fun y => messageUuid y = messageUuid x) found))
    = matchCount x
  ∧ NoDup found.
Proof.
  intros Hs Hx.
  destruct (search_structure this q f found Hs) as (us & blocks & Hnd & Hbs & Hp).
  assert (Hx' : x ∈ mjoin blocks) by by rewrite <- Hp.
  destruct (blocks_filter_same _ _ _ _ _ Hbs Hnd x Hx') as (i & n & Hf & Hn & Hi).
  split; [| split].
  - intros k Hk. rewrite Hp.
    assert (Hin : withMatchIndex x k
                  ∈ filter (fun y => messageUuid y = messageUuid x) (mjoin blocks)).
    { rewrite Hf. apply elem_of_occurrenceMatches. exists (Z.to_nat k).
      split; [lia |]. unfold withMatchIndex. rewrite Hn, Hi. f_equal. lia. }
    by apply list_elem_of_filter in Hin as [_ Hin].
  - rewrite Hp, Hf. unfold occurrenceMatches.
    by rewrite length_fmap, length_seq.
  - rewrite Hp. by apply (blocks_NoDup this (toLowerCase q) f blocks us).
Qed.

Lemma search_matches_occur_holds (this : MessageSearchIndex) (q : jsstring)
    (f : SearchFilterType) (found : list SearchMatch) (x : SearchMatch) :
  search this q f = Returns found ->
  x ∈ found ->
  exists i m p,
    messageIndex x = Z.of_nat i
    ∧ messages this !! i = Some m
    ∧ occursAt (toLowerCase (fieldText f m)) (toLowerCase (toLowerCase q)) p.
Proof.
  intros Hs Hx.
  destruct (search_matches_resolve_holds this q f found x Hs Hx)
    as (i & m & n & _ & Hm & Hi & Hn & Hc & Hk).
  exists i, m.
  assert (Hq : toLowerCase (toLowerCase q) ≠ []).
  { intros Hq. apply (findAllMatchesInText_diverges_iff_holds (fieldText f m)) in Hq.
    congruence. }
  destruct (findAllMatchesInText_scan (fieldText f m) (toLowerCase q) Hq)
    as (ps & Hscan & Hrun).
  rewrite Hrun in Hn. injection Hn as <-.
  destruct ps as [|p ps]; [simpl in *; lia |].
  inversion Hscan as [| c p' ps' _ Hocc]. by exists p.
Qed.

(** X10: A returned match stands for a real occurrence: the lower-cased query
    occurs in the lower-cased text of the message at [messageIndex], so a
    candidate of the FlexSearch lookup in which the query does not occur
    literally never shows up in the result. *)
Theorem search_matches_occur (this : MessageSearchIndex) (q : jsstring)
    (f : SearchFilterType) (found : list SearchMatch) (x : SearchMatch) :
  search this q f = Returns found ->
  x ∈ found ->
  exists i m p,
    messageIndex x = Z.of_nat i
    ∧ messages this !! i = Some m
    ∧ occursAt (toLowerCase (fieldText f m)) (toLowerCase (toLowerCase q)) p.
Proof. apply search_matches_occur_holds. Qed.
End SearchResults.

Section SearchIsolation.
Context `{H : Host} `{!HostLaws H}.

(** X11: A message whose text for the searched field is empty is never among
    the matches; in tool-id mode this leaves out every message without a
    tool identifier, whatever its content says. *)
Theorem search_skips_empty_field (this : MessageSearchIndex) (q : jsstring)
    (f : SearchFilterType) (found : list SearchMatch) (x : SearchMatch) :
  search this q f = Returns found ->
  x ∈ found ->
  exists i m,
    messageIndex x = Z.of_nat i
    ∧ messages this !! i = Some m
    ∧ fieldText f m ≠ []
    ∧ (f = ToolId -> toolIdTexts m ≠ []).
Proof.
  intros Hs Hx.
  destruct (search_matches_occur_holds this q f found x Hs Hx)
    as (i & m & p & Hi & Hm & Hocc).
  destruct (search_matches_resolve_holds this q f found x Hs Hx)
    as (i' & m' & n & _ & _ & _ & Hn & _).
  assert (Hq : toLowerCase (toLowerCase q) ≠ []).
  { intros Hq. apply (findAllMatchesInText_diverges_iff_holds (fieldText f m')) in Hq.
    congruence. }
  assert (Ht : fieldText f m ≠ []).
  { intros Ht. rewrite Ht in Hocc.
    rewrite (toLowerCase_ascii []) in Hocc by constructor.
    destruct (occursAt_bound _ _ _ Hq Hocc) as [Hb Hl]. simpl in Hb. lia. }
  exists i, m. repeat split; try done.
  intros -> Hnil. apply Ht. simpl.
  by rewrite extractToolIds_description_holds, Hnil.
Qed.
End SearchIsolation.

(* ================================================================= *)
(** ** The index and the store together *)

Lemma omap_all_Some {A B : Type} (g : A -> option B) (l : list A) :
  (forall x, x ∈ l -> is_Some (g x)) ->
  length (omap g l) = length l
  ∧ forall i, omap g l !! i = l !! i ≫= g.
Proof.
  induction l as [|x l IH]; intros Hall; [by split; [| intros []] |].
  destruct (Hall x) as [y Hy]; [by left |].
  destruct IH as [IHlen IHlook]; [intros z Hz; apply Hall; by right |].
  cbn [omap list_omap]. rewrite Hy. split; [simpl; by rewrite IHlen |].
  intros [|i]; simpl; [done | apply IHlook].
Qed.

Section IndexAndStore.
Context `{H : Host}.

Lemma search_built_in_snapshot_holds (this : MessageSearchIndex)
    (msgs : list ClaudeMessage) (q : jsstring) (f : SearchFilterType)
    (found : list SearchMatch) (x : SearchMatch) :
  search (build this msgs) q f = Returns found ->
  x ∈ found ->
  exists i m,
    messageIndex x = Z.of_nat i ∧ msgs !! i = Some m
    ∧ uuid m = messageUuid x.
Proof.
  intros Hs Hx.
  destruct (search_matches_resolve_holds _ q f found x Hs Hx)
    as (i & m & n & Hi & _ & Hxi & _).
  destruct (build_messageMap_resolves_holds this msgs (messageUuid x) i)
    as (_ & _ & Hres).
  destruct (Hres Hi) as (m' & Hm' & Hu). by exists i, m'.
Qed.

(** X12: On an index built from a snapshot, every returned match points into
    the snapshot, at the message that carries the uuid of the match. *)
Theorem search_built_in_snapshot (this : MessageSearchIndex)
    (msgs : list ClaudeMessage) (q : jsstring) (f : SearchFilterType)
    (found : list SearchMatch) (x : SearchMatch) :
  search (build this msgs) q f = Returns found ->
  x ∈ found ->
  exists i m,
    messageIndex x = Z.of_nat i ∧ msgs !! i = Some m
    ∧ uuid m = messageUuid x.
Proof. apply search_built_in_snapshot_holds. Qed.

Lemma setSessionSearchQuery_keeps_all_holds (this : MessageSearchIndex)
    (state state' : AppStore) (q : jsstring) (found : list SearchMatch) :
  isBlank q = false ->
  search (build this (storeMessages state)) q (filterType (sessionSearch state))
  = Returns found ->
  setSessionSearchQuery (build this (storeMessages state)) state q
  = Returns state' ->
  matches (sessionSearch state') = found.
Proof.
  intros Hq Hs. rewrite (setSessionSearchQuery_nonblank _ state q Hq), Hs.
  intros [= <-]. cbn. apply filter_all. intros x Hx.
  destruct (search_built_in_snapshot_holds _ _ _ _ _ x Hs Hx) as (i & m & Hi & Hm & _).
  apply lookup_lt_Some in Hm. unfold indexInRange. lia.
Qed.

(** X13: When the store holds the snapshot the index was built from, the
    range filter of [setSessionSearchQuery] drops nothing: the matches it
    stores are the list [search] returned, in the same order. *)
Theorem setSessionSearchQuery_keeps_all (this : MessageSearchIndex)
    (state state' : AppStore) (q : jsstring) (found : list SearchMatch) :
  isBlank q = false ->
  search (build this (storeMessages state)) q (filterType (sessionSearch state))
  = Returns found ->
  setSessionSearchQuery (build this (storeMessages state)) state q
  = Returns state' ->
  matches (sessionSearch state') = found.
Proof. apply setSessionSearchQuery_keeps_all_holds. Qed.

(** X14: After a query that is not blank, the legacy [results] list runs
    parallel to [matches]: it has the same length, and its [i]-th entry is
    the message of the store at the [messageIndex] of the [i]-th match. *)
Theorem setSessionSearchQuery_results (index : MessageSearchIndex)
    (state state' : AppStore) (q : jsstring) :
  isBlank q = false ->
  setSessionSearchQuery index state q = Returns state' ->
  length (results (sessionSearch state')) = length (matches (sessionSearch state'))
  ∧ forall i x,
      matches (sessionSearch state') !! i = Some x ->
      exists m,
        results (sessionSearch state') !! i = Some m
        ∧ storeMessages state !! Z.to_nat (messageIndex x) = Some m.
Proof.
  intros Hq. rewrite (setSessionSearchQuery_nonblank index state q Hq).
  destruct (search index q _) as [found| |]; [| | discriminate].
  - intros [= <-]. cbn.
    set (kept := filter (indexInRange (storeMessages state)) found).
    assert (Hall : forall x, x ∈ kept ->
              is_Some (at_index (storeMessages state) (messageIndex x))).
    { intros x Hx. apply list_elem_of_filter in Hx as [[Hlo Hhi] _].
      unfold at_index. destruct (Z.ltb_spec (messageIndex x) 0); [lia |].
      apply lookup_lt_is_Some. lia. }
    destruct (omap_all_Some _ kept Hall) as [Hlen Hlook].
    split; [exact Hlen |].
    intros i x Hi. rewrite Hlook, Hi. simpl.
    destruct (Hall x) as [m Hm]; [by eapply list_elem_of_lookup_2 |].
    exists m. split; [done |].
    unfold at_index in Hm. by destruct (messageIndex x <? 0)%Z.
  - intros [= <-]. cbn. split; [done |]. intros i x Hi.
    by rewrite lookup_nil in Hi.
Qed.

(** X15: A blank query (empty or whitespace only) does what
    [clearSessionSearch] does, without consulting the index. *)
Theorem setSessionSearchQuery_blank (index : MessageSearchIndex)
    (state : AppStore) (q : jsstring) :
  isBlank q = true ->
  setSessionSearchQuery index state q = Returns (clearSessionSearch state).
Proof.
  intros Hq. unfold setSessionSearchQuery. by rewrite truthy_trim_blank, Hq.
Qed.

(** X16: While a session is being loaded, and after a load that failed, the
    index is not built, and a query that is not blank never reaches the
    FlexSearch lookup, whatever the store holds by then: [search] returns
    the empty list for every host, also for one whose lookup throws on
    every call, and what [setSessionSearchQuery] leaves is the same for
    every two hosts: the query kept, no matches, cursor [-1], not
    searching, the messages and the filter type unchanged. *)
Theorem selectSession_unloaded_query (H' : Host) (excludeSidechain : bool)
    (w : World) (state : AppStore) (q : jsstring) (f : SearchFilterType) :
  isBlank q = false ->
  let loading := selectSessionStart w in
  let failed := selectSessionSettled (H := H) excludeSidechain None loading in
  failed = loading
  ∧ filterType (sessionSearch (store loading))
    = filterType (sessionSearch (store w))
  ∧ isBuilt (messageSearchIndex loading) = false
  ∧ search (H := H) (messageSearchIndex loading) q f = Returns []
  ∧ setSessionSearchQuery (H := H) (messageSearchIndex loading) state q
    = setSessionSearchQuery (H := H') (messageSearchIndex loading) state q
  ∧ exists state',
      setSessionSearchQuery (H := H) (messageSearchIndex loading) state q
      = Returns state'
      ∧ storeMessages state' = storeMessages state
      ∧ query (sessionSearch state') = q
      ∧ matches (sessionSearch state') = []
      ∧ currentMatchIndex (sessionSearch state') = (-1)%Z
      ∧ isSearching (sessionSearch state') = false
      ∧ filterType (sessionSearch state') = filterType (sessionSearch state).
Proof.
  intros Hq loading failed. split; [done |]. split; [done |].
  split; [done |].
  split; [by apply search_not_built |].
  rewrite (setSessionSearchQuery_nonblank (H := H) _ _ q Hq).
  rewrite (setSessionSearchQuery_nonblank (H := H') _ _ q Hq).
  rewrite (search_not_built (H := H)) by done.
  rewrite (search_not_built (H := H')) by done.
  split; [reflexivity |].
  eexists. split; [reflexivity |]. by cbn.
Qed.

(** X17: When [load_session_messages] settles with the messages, whatever
    the index and the store have become since [selectSession] began, the
    store holds the messages the sidechain filter keeps, the index is
    rebuilt from these same messages, and the search state is left as it
    was at that moment: idle with the filter type it had when nothing was
    typed during the load, and otherwise the query that was typed with
    the matches it had. A query that follows stores every match the index
    returns. *)
Theorem selectSession_loaded_query (excludeSidechain : bool)
    (allMessages : list (ClaudeMessage * bool)) (w : World)
    (q : jsstring) (found : list SearchMatch) (state' : AppStore) :
  let w' := selectSessionSettled excludeSidechain (Some allMessages) w in
  storeMessages (store w') = sidechainFilter excludeSidechain allMessages
  ∧ messages (messageSearchIndex w') = storeMessages (store w')
  ∧ isBuilt (messageSearchIndex w') = true
  ∧ sessionSearch (store w') = sessionSearch (store w)
  ∧ (forall before,
       w = selectSessionStart before ->
       isIdle (sessionSearch (store w'))
         (filterType (sessionSearch (store before))))
  ∧ (isBlank q = false ->
     search (messageSearchIndex w') q (filterType (sessionSearch (store w)))
     = Returns found ->
     setSessionSearchQuery (messageSearchIndex w') (store w') q = Returns state' ->
     matches (sessionSearch state') = found).
Proof.
  intros w'. subst w'. cbn [selectSessionSettled store
                            messageSearchIndex storeMessages sessionSearch].
  destruct (build_messageMap_resolves_holds (messageSearchIndex w)
              (sidechainFilter excludeSidechain allMessages) [] 0)
    as (Hm & Hb & _).
  split; [done |]. split; [exact Hm |]. split; [exact Hb |]. split; [done |].
  split; [by intros before -> |].
  intros Hq Hs Hrun.
  eapply (setSessionSearchQuery_keeps_all_holds (messageSearchIndex w)
            {| storeMessages := sidechainFilter excludeSidechain allMessages;
               sessionSearch := _ |}); [exact Hq | exact Hs | exact Hrun].
Qed.
End IndexAndStore.

(* ================================================================= *)
(** ** Invariants of the search state *)

Lemma StronglySorted_filter {A : Type} (R : relation A) (P : A -> Prop)
    `{!forall x, Decision (P x)} (l : list A) :
  StronglySorted R l -> StronglySorted R (filter P l).
Proof.
  induction 1 as [|x l Hs IH Hx]; [constructor |].
  rewrite filter_cons. destruct (decide (P x)); [| done].
  constructor; [done |].
  apply Forall_forall. intros y Hy. apply list_elem_of_filter in Hy as [_ Hy].
  rewrite Forall_forall in Hx. by apply Hx.
Qed.

Section StateInvariant.
Context `{H : Host}.

Lemma search_returns_sorted this q f found :
  search this q f = Returns found -> StronglySorted mayPrecede found.
Proof.
  unfold search.
  destruct (negb (isBuilt this) || negb (truthyString (trim q))).
  - intros [= <-]. constructor.
  - destruct (indexSearch _ _ _ _) as [fieldResults|]; [| discriminate].
    destruct (forEachM _ _ _) as [allMatches| |]; simpl; try discriminate.
    intros [= <-]. apply Array_sort_sorted; apply _.
Qed.

Lemma setSessionSearchQuery_invariant index state q state' :
  setSessionSearchQuery index state q = Returns state' ->
  searchInvariant (sessionSearch state').
Proof.
  destruct (isBlank q) eqn:Hq.
  - unfold setSessionSearchQuery. rewrite truthy_trim_blank, Hq.
    intros [= <-]. split; [by left | constructor].
  - rewrite (setSessionSearchQuery_nonblank index state q Hq).
    destruct (search index q _) as [found| |] eqn:Hs; [| | discriminate].
    + intros [= <-]. split; cbn.
      * unfold cursorTight. cbn [matches currentMatchIndex].
        destruct (filter (indexInRange (storeMessages state)) found) as [|x kept];
          [by left | right].
        destruct (Z.ltb_spec 0 (Z.of_nat (length (x :: kept))));
          simpl length in *; lia.
      * apply StronglySorted_filter.
        exact (search_returns_sorted index q _ found Hs).
    + intros [= <-]. split; [by left | constructor].
Qed.

Lemma goToNextMatch_invariant state :
  searchInvariant (sessionSearch state) ->
  searchInvariant (sessionSearch (goToNextMatch state)).
Proof.
  intros [Hc Hs]. unfold goToNextMatch.
  destruct (Z.eqb_spec (Z.of_nat (length (matches (sessionSearch state)))) 0);
    [done |].
  split; [| done]. unfold cursorTight in *. cbn. right.
  destruct Hc as [[Hnil _] | Hc]; [rewrite Hnil in *; simpl in *; lia |].
  rewrite Z.rem_mod_nonneg by lia. apply Z.mod_pos_bound. lia.
Qed.

Lemma goToPrevMatch_invariant state :
  searchInvariant (sessionSearch state) ->
  searchInvariant (sessionSearch (goToPrevMatch state)).
Proof.
  intros [Hc Hs]. unfold goToPrevMatch.
  destruct (Z.eqb_spec (Z.of_nat (length (matches (sessionSearch state)))) 0);
    [done |].
  split; [| done]. unfold cursorTight in *. cbn. right.
  destruct (Z.leb_spec (currentMatchIndex (sessionSearch state)) 0); [lia |].
  destruct Hc as [[_ Hc] | Hc]; lia.
Qed.

Lemma goToMatchIndex_invariant state i :
  searchInvariant (sessionSearch state) ->
  searchInvariant (sessionSearch (goToMatchIndex state i)).
Proof.
  intros [Hc Hs]. unfold goToMatchIndex.
  destruct (Z.ltb_spec i 0); [done |].
  destruct (Z.leb_spec (Z.of_nat (length (matches (sessionSearch state)))) i);
    [done |].
  split; [| done]. unfold cursorTight. cbn. right. lia.
Qed.

Lemma reachable_invariant state :
  reachable state -> searchInvariant (sessionSearch state).
Proof.
  induction 1 as [| state msgs _ IH | state index a state' _ IH Hrun].
  - split; [by left | constructor].
  - exact IH.
  - destruct a; simpl in Hrun.
    + by apply (setSessionSearchQuery_invariant index state q).
    + injection Hrun as <-. by apply goToNextMatch_invariant.
    + injection Hrun as <-. by apply goToPrevMatch_invariant.
    + injection Hrun as <-. by apply goToMatchIndex_invariant.
    + injection Hrun as <-. split; [by left | constructor].
    + injection Hrun as <-. split; [by left | constructor].
Qed.

Lemma goToMatchIndexNumber_Integer state i :
  goToMatchIndexNumber state (Integer i)
  = asNumberState (sessionSearch (goToMatchIndex state i)).
Proof.
  unfold goToMatchIndexNumber, goToMatchIndex. cbn [number_lt number_ge].
  by destruct ((i <? 0)%Z
               || (Z.of_nat (length (matches (sessionSearch state))) <=? i)%Z).
Qed.

Lemma cursorTightNumber_integer s :
  cursorTightNumber (asNumberState s) ↔ cursorTight s.
Proof.
  unfold cursorTightNumber, cursorTight. cbn. split.
  - intros [[Hnil [= Hc]] | (i & [= Hc] & Hi)]; [by left | right; lia].
  - intros [[Hnil Hc] | Hc]; [left; by rewrite Hc | right; by eexists].
Qed.

Lemma goToMatchIndex_cursorTight state i :
  cursorTight (sessionSearch state) ->
  cursorTight (sessionSearch (goToMatchIndex state i)).
Proof.
  intros Hc. unfold goToMatchIndex.
  destruct (Z.ltb_spec i 0); [done |].
  destruct (Z.leb_spec (Z.of_nat (length (matches (sessionSearch state)))) i);
    [done |].
  unfold cursorTight. cbn. right. lia.
Qed.

(** Which numbers [goToMatchIndex] lets through, and what it stores. *)
Lemma goToMatchIndexNumber_cases state index :
  (slipsThrough index (totalOf state)
   ∧ numberCurrentMatchIndex (goToMatchIndexNumber state index) = index
   ∧ numberMatches (goToMatchIndexNumber state index)
     = matches (sessionSearch state))
  ∨ (¬ slipsThrough index (totalOf state)
     ∧ exists i,
         goToMatchIndexNumber state index
         = asNumberState (sessionSearch (goToMatchIndex state i))).
Proof.
  unfold slipsThrough, totalOf.
  destruct index as [i | below | negative |].
  - right. split.
    + intros [Hn | (b & Hb & _)]; discriminate.
    + exists i. apply goToMatchIndexNumber_Integer.
  - unfold goToMatchIndexNumber. cbn [number_lt number_ge].
    destruct (Z.ltb_spec below 0) as [Hlo | Hlo]; cbn [orb].
    { right. split.
      - intros [Hn | (b & [= <-] & Hb)]; [discriminate | lia].
      - exists (-1)%Z. unfold goToMatchIndex. by cbn. }
    destruct (Z.leb_spec (Z.of_nat (length (matches (sessionSearch state)))) below)
      as [Hhi | Hhi].
    { right. split.
      - intros [Hn | (b & [= <-] & Hb)]; [discriminate | lia].
      - exists (-1)%Z. unfold goToMatchIndex. by cbn. }
    left. split; [right; exists below; split; [done | lia] | by cbn].
  - right. split.
    + intros [Hn | (b & Hb & _)]; discriminate.
    + exists (-1)%Z. unfold goToMatchIndexNumber, goToMatchIndex.
      cbn [number_lt number_ge]. by destruct negative.
  - left. split; [by left | by cbn].
Qed.

Lemma slipsThrough_not_integer index total :
  slipsThrough index total -> forall i, index ≠ Integer i.
Proof. intros [-> | (b & -> & _)] i; discriminate. Qed.

Lemma goToMatchIndexNumber_tight state index :
  cursorTight (sessionSearch state) ->
  cursorTightNumber (goToMatchIndexNumber state index)
  ↔ ¬ slipsThrough index (totalOf state).
Proof.
  intros Hc.
  destruct (goToMatchIndexNumber_cases state index)
    as [(Hslip & Hcur & _) | (Hno & i & ->)].
  - split; [| done]. intros [[_ Hi] | (i & Hi & _)] _;
      rewrite Hcur in Hi; by apply (slipsThrough_not_integer _ _ Hslip) in Hi.
  - split; [done |]. intros _. apply cursorTightNumber_integer.
    by apply goToMatchIndex_cursorTight.
Qed.

(** X18: As long as [goToMatchIndex] is handed integers, the cursor of every
    state the actions reach is [-1] exactly when there are no matches, and
    with matches it is an index into them; the counter the viewer shows,
    [currentMatchIndex + 1] of [matches.length], then lies between [1] and
    the number of matches. One call of [goToMatchIndex] with any number
    on such a state keeps this exactly when the number is neither NaN nor
    a non-integer between [0] and the number of matches: those two the
    bounds test lets through, and they are stored as the cursor. *)
Theorem reachable_cursorTight (state : AppStore) :
  reachable state ->
  (matches (sessionSearch state) = [] ↔ cursorOf state = (-1)%Z)
  ∧ (matches (sessionSearch state) ≠ [] ->
     (1 <= cursorOf state + 1 <= totalOf state)%Z)
  ∧ (forall index : number,
       (cursorTightNumber (goToMatchIndexNumber state index)
        ↔ ¬ slipsThrough index (totalOf state))
       ∧ (slipsThrough index (totalOf state) ->
          numberCurrentMatchIndex (goToMatchIndexNumber state index) = index)).
Proof.
  intros Hr. destruct (reachable_invariant state Hr) as [Hc _].
  assert (Hjump : forall index : number,
    (cursorTightNumber (goToMatchIndexNumber state index)
     ↔ ¬ slipsThrough index (totalOf state))
    ∧ (slipsThrough index (totalOf state) ->
       numberCurrentMatchIndex (goToMatchIndexNumber state index) = index)).
  { intros index. split; [by apply goToMatchIndexNumber_tight |].
    intros Hslip.
    by destruct (goToMatchIndexNumber_cases state index)
      as [(_ & Hcur & _) | (Hno & _)]. }
  unfold cursorOf, totalOf in *.
  destruct Hc as [[Hnil Hc] | Hc].
  - split; [by split |]. split; [by intros Hne | exact Hjump].
  - split; [| split; [lia | exact Hjump]]. split.
    + intros Hnil. rewrite Hnil in Hc. simpl in Hc. lia.
    + lia.
Qed.

(** X19: In every reachable state the stored matches obey the ordering law:
    the list comes sorted from the index, the range filter and the
    navigation actions keep its order. *)
Theorem reachable_matches_ordered (state : AppStore) :
  reachable state -> orderedMatches (matches (sessionSearch state)).
Proof.
  intros Hr. destruct (reachable_invariant state Hr) as [_ Hs].
  by apply sorted_orderedMatches.
Qed.

Lemma currentMatch_tight s :
  cursorTight s ->
  (matches s = [] -> currentMatch s = None)
  ∧ (matches s ≠ [] ->
     exists x,
       matches s !! Z.to_nat (currentMatchIndex s) = Some x
       ∧ currentMatch s = Some (messageUuid x, matchIndex x)).
Proof.
  intros Hc. unfold currentMatch. split.
  - intros Hnil. rewrite Hnil. simpl. by rewrite andb_false_r.
  - intros Hne. destruct Hc as [[Hnil _] | Hc]; [done |].
    destruct (lookup_lt_is_Some_2 (matches s) (Z.to_nat (currentMatchIndex s)))
      as [x Hx]; [lia |].
    exists x. split; [done |].
    replace (0 <=? currentMatchIndex s)%Z with true
      by (symmetry; apply Z.leb_le; lia).
    replace (0 <? Z.of_nat (length (matches s)))%Z with true
      by (symmetry; apply Z.ltb_lt; lia).
    simpl. unfold at_index.
    replace (currentMatchIndex s <? 0)%Z with false
      by (symmetry; apply Z.ltb_ge; lia).
    by rewrite Hx.
Qed.

Lemma currentMatchNumber_integer s :
  currentMatchNumber (asNumberState s) = currentMatch s.
Proof. reflexivity. Qed.

Lemma goToMatchIndex_keeps_matches state i :
  matches (sessionSearch (goToMatchIndex state i)) = matches (sessionSearch state).
Proof.
  unfold goToMatchIndex.
  by destruct ((i <? 0)%Z
               || (Z.of_nat (length (matches (sessionSearch state))) <=? i)%Z).
Qed.

Lemma goToMatchIndexNumber_currentMatch state index :
  cursorTight (sessionSearch state) ->
  currentMatchNumber (goToMatchIndexNumber state index) = None
  ↔ matches (sessionSearch state) = [] ∨ slipsThrough index (totalOf state).
Proof.
  intros Hc.
  destruct (goToMatchIndexNumber_cases state index)
    as [(Hslip & Hcur & Hm) | (Hno & i & ->)].
  - split; [by right |]. intros _.
    unfold currentMatchNumber. rewrite Hcur, Hm.
    destruct Hslip as [-> | (b & -> & Hb)]; [done |].
    cbn [number_ge at_number].
    by destruct ((0 <=? b)%Z
                 && (0 <? Z.of_nat (length (matches (sessionSearch state))))%Z).
  - rewrite currentMatchNumber_integer.
    destruct (currentMatch_tight _ (goToMatchIndex_cursorTight state i Hc))
      as [Hnone Hsome].
    rewrite goToMatchIndex_keeps_matches in Hnone, Hsome.
    split.
    + intros Hcm. left.
      destruct (matches (sessionSearch state)) as [|m ms] eqn:E; [done |].
      destruct Hsome as (x & _ & Hx); [done |]. congruence.
    + intros [Hnil | Hslip]; [by apply Hnone | done].
Qed.

(** X20: As long as [goToMatchIndex] is handed integers, in every state the
    actions reach the viewer's [currentMatch] is the match under the
    cursor when there are matches, never [null], and [null] without
    matches. After one call of [goToMatchIndex] with any number on such
    a state, [currentMatch] is [null] exactly when there are no matches or
    the number is NaN or a non-integer between [0] and the number of
    matches, for which [matches[currentMatchIndex]] is [undefined]. *)
Theorem reachable_currentMatch (state : AppStore) :
  reachable state ->
  (matches (sessionSearch state) = [] -> currentMatch (sessionSearch state) = None)
  ∧ (matches (sessionSearch state) ≠ [] ->
     exists x,
       matches (sessionSearch state) !! Z.to_nat (cursorOf state) = Some x
       ∧ currentMatch (sessionSearch state) = Some (messageUuid x, matchIndex x))
  ∧ (forall index : number,
       currentMatchNumber (goToMatchIndexNumber state index) = None
       ↔ matches (sessionSearch state) = []
         ∨ slipsThrough index (totalOf state)).
Proof.
  intros Hr. destruct (reachable_invariant state Hr) as [Hc _].
  destruct (currentMatch_tight _ Hc) as [Hnone Hsome].
  split; [exact Hnone |]. split; [exact Hsome |].
  intros index. by apply goToMatchIndexNumber_currentMatch.
Qed.
(** X28: On a state reached with integer jumps, [goToMatchIndex(index)] with
    any number leaves the cursor [-1] or an index into the matches exactly
    when [index] is neither NaN nor a non-integer between [0] and the
    number of matches; for every such number, the infinities and the
    non-integers out of range included, the call does what it does on
    some integer. *)
Theorem goToMatchIndexNumber_cursorValid (state : AppStore) (index : number) :
  reachable state ->
  (cursorValidNumber (goToMatchIndexNumber state index)
   ↔ ¬ slipsThrough index (totalOf state))
  ∧ (¬ slipsThrough index (totalOf state) ->
     exists i,
       goToMatchIndexNumber state index
       = asNumberState (sessionSearch (goToMatchIndex state i))).
Proof.
  intros Hr. destruct (reachable_invariant state Hr) as [Hc _].
  destruct (goToMatchIndexNumber_cases state index)
    as [(Hslip & Hcur & _) | (Hno & i & Heq)].
  - split; [| done]. split; [| done].
    intros [Hi | (i & Hi & _)] _;
      rewrite Hcur in Hi; by apply (slipsThrough_not_integer _ _ Hslip) in Hi.
  - split; [| by eauto]. split; [done |]. intros _. rewrite Heq.
    destruct (proj2 (cursorTightNumber_integer _)
                (goToMatchIndex_cursorTight state i Hc))
      as [[_ Hminus] | Hindex]; [by left | by right].
Qed.
End StateInvariant.

(* ================================================================= *)
(** ** Stepping back and forth *)

Lemma store_same state state' :
  sameButCursor state state' -> cursorOf state' = cursorOf state ->
  state' = state.
Proof.
  destruct state as [msgs [q ms c srch ft res]].
  destruct state' as [msgs' [q' ms' c' srch' ft' res']].
  unfold sameButCursor, cursorOf. simpl.
  intros (-> & -> & -> & -> & -> & ->) ->. done.
Qed.

Lemma goToNextMatch_same state : sameButCursor state (goToNextMatch state).
Proof.
  unfold sameButCursor, goToNextMatch.
  by destruct (Z.of_nat (length (matches (sessionSearch state))) =? 0)%Z.
Qed.

Lemma goToPrevMatch_same state : sameButCursor state (goToPrevMatch state).
Proof.
  unfold sameButCursor, goToPrevMatch.
  by destruct (Z.of_nat (length (matches (sessionSearch state))) =? 0)%Z.
Qed.

Lemma sameButCursor_trans s1 s2 s3 :
  sameButCursor s1 s2 -> sameButCursor s2 s3 -> sameButCursor s1 s3.
Proof.
  unfold sameButCursor.
  intros (E1 & E2 & E3 & E4 & E5 & E6) (F1 & F2 & F3 & F4 & F5 & F6).
  repeat split; congruence.
Qed.

Lemma goToNextMatch_iter_same k state :
  sameButCursor state (Nat.iter k goToNextMatch state).
Proof.
  induction k as [|k IH]; [by repeat split |].
  change (Nat.iter (S k) goToNextMatch state)
    with (goToNextMatch (Nat.iter k goToNextMatch state)).
  eapply sameButCursor_trans; [exact IH | apply goToNextMatch_same].
Qed.

Lemma goToPrevMatch_after_next state :
  (0 <= cursorOf state < totalOf state)%Z ->
  goToPrevMatch (goToNextMatch state) = state.
Proof.
  intros Hc. apply store_same.
  - eapply sameButCursor_trans; [apply goToNextMatch_same | apply goToPrevMatch_same].
  - assert (Hne : matches (sessionSearch state) ≠ []).
    { intros Hnil. unfold totalOf in Hc. rewrite Hnil in Hc. simpl in Hc. lia. }
    assert (Hne' : matches (sessionSearch (goToNextMatch state)) ≠ [])
      by by rewrite goToNextMatch_matches.
    rewrite (goToPrevMatch_cursor _ Hne'), goToNextMatch_total,
      (goToNextMatch_cursor _ Hne).
    destruct (decide (cursorOf state + 1 = totalOf state)%Z) as [Heq | Hlt].
    + rewrite Heq, Z.rem_same by lia. simpl. lia.
    + rewrite Z.rem_small by lia.
      destruct (Z.leb_spec (cursorOf state + 1) 0); lia.
Qed.

Lemma goToNextMatch_after_prev state :
  (0 <= cursorOf state < totalOf state)%Z ->
  goToNextMatch (goToPrevMatch state) = state.
Proof.
  intros Hc. apply store_same.
  - eapply sameButCursor_trans; [apply goToPrevMatch_same | apply goToNextMatch_same].
  - assert (Hne : matches (sessionSearch state) ≠ []).
    { intros Hnil. unfold totalOf in Hc. rewrite Hnil in Hc. simpl in Hc. lia. }
    assert (Hm : matches (sessionSearch (goToPrevMatch state))
                 = matches (sessionSearch state))
      by (destruct (goToPrevMatch_same state) as (_ & _ & Hm & _); exact Hm).
    assert (Hne' : matches (sessionSearch (goToPrevMatch state)) ≠ [])
      by by rewrite Hm.
    assert (Ht : totalOf (goToPrevMatch state) = totalOf state)
      by (unfold totalOf; by rewrite Hm).
    rewrite (goToNextMatch_cursor _ Hne'), Ht, (goToPrevMatch_cursor _ Hne).
    destruct (Z.leb_spec (cursorOf state) 0).
    + replace (totalOf state - 1 + 1)%Z with (totalOf state) by lia.
      rewrite Z.rem_same by lia. lia.
    + replace (cursorOf state - 1 + 1)%Z with (cursorOf state) by lia.
      apply Z.rem_small. lia.
Qed.

(** X21: With the cursor on a match, a step forward and a step back undo each
    other, in either order: the store is exactly as before. *)
Theorem navigation_roundtrip (state : AppStore) :
  (0 <= cursorOf state < totalOf state)%Z ->
  goToPrevMatch (goToNextMatch state) = state
  ∧ goToNextMatch (goToPrevMatch state) = state.
Proof.
  intros Hc. split;
    [by apply goToPrevMatch_after_next | by apply goToNextMatch_after_prev].
Qed.

Lemma navigation_roundtrip_witness :
  goToPrevMatch (goToNextMatch (sampleStore 3 2)) = sampleStore 3 2
  ∧ goToNextMatch (goToPrevMatch (sampleStore 3 0)) = sampleStore 3 0.
Proof.
  split.
  - apply (navigation_roundtrip (sampleStore 3 2)).
    unfold cursorOf, totalOf; simpl; lia.
  - apply (navigation_roundtrip (sampleStore 3 0)).
    unfold cursorOf, totalOf; simpl; lia.
Defined.

Lemma goToNextMatch_iter_valid k state :
  (0 <= cursorOf state < totalOf state)%Z ->
  (0 <= cursorOf (Nat.iter k goToNextMatch state)
   < totalOf (Nat.iter k goToNextMatch state))%Z.
Proof.
  intros Hc. destruct (goToNextMatch_iter k state Hc) as [-> ->].
  apply Z.mod_pos_bound. lia.
Qed.

Lemma goToPrevMatch_iter_undoes k : forall state,
  (0 <= cursorOf state < totalOf state)%Z ->
  Nat.iter k goToPrevMatch (Nat.iter k goToNextMatch state) = state.
Proof.
  induction k as [|k IH]; intros state Hc; [done |].
  rewrite Nat.iter_succ_r.
  change (Nat.iter (S k) goToNextMatch state)
    with (goToNextMatch (Nat.iter k goToNextMatch state)).
  rewrite goToPrevMatch_after_next by by apply goToNextMatch_iter_valid.
  by apply IH.
Qed.

(** X22: With [n] matches and the cursor on one of them, every match is reached
    by stepping forward, in [(k - cursor) mod n] steps for the match at
    [k]; [n] steps forward, and likewise [n] steps back, lead to the very
    state they started from. *)
Theorem navigation_cycle (state : AppStore) :
  (0 <= cursorOf state < totalOf state)%Z ->
  (forall k, (0 <= k < totalOf state)%Z ->
     cursorOf (Nat.iter (Z.to_nat ((k - cursorOf state) mod totalOf state))
                        goToNextMatch state) = k)
  ∧ Nat.iter (length (matches (sessionSearch state))) goToNextMatch state = state
  ∧ Nat.iter (length (matches (sessionSearch state))) goToPrevMatch state = state.
Proof.
  intros Hc.
  assert (Hfull : Nat.iter (length (matches (sessionSearch state)))
                           goToNextMatch state = state).
  { apply store_same; [apply goToNextMatch_iter_same |].
    destruct (goToNextMatch_iter (length (matches (sessionSearch state))) state Hc)
      as [-> _].
    fold (totalOf state).
    rewrite <- (Z.mul_1_l (totalOf state)) at 1.
    rewrite Z.mod_add by lia. apply Z.mod_small. lia. }
  split; [| split; [exact Hfull |]].
  - intros k Hk.
    destruct (goToNextMatch_iter
                (Z.to_nat ((k - cursorOf state) mod totalOf state)) state Hc)
      as [-> _].
    pose proof (Z.mod_pos_bound (k - cursorOf state) (totalOf state)).
    rewrite Z2Nat.id by lia.
    rewrite Zplus_mod_idemp_r.
    replace (cursorOf state + (k - cursorOf state))%Z with k by lia.
    apply Z.mod_small. lia.
  - rewrite <- Hfull at 2. by apply goToPrevMatch_iter_undoes.
Qed.

Lemma navigation_cycle_witness :
  cursorOf (Nat.iter 2 goToNextMatch (sampleStore 3 2)) = 1%Z
  ∧ Nat.iter 3 goToNextMatch (sampleStore 3 2) = sampleStore 3 2
  ∧ Nat.iter 3 goToPrevMatch (sampleStore 3 2) = sampleStore 3 2.
Proof.
  destruct (navigation_cycle (sampleStore 3 2)) as (Hk & Hn & Hp).
  { unfold cursorOf, totalOf; simpl; lia. }
  split; [| split; [exact Hn | exact Hp]].
  apply (Hk 1%Z). unfold totalOf; simpl; lia.
Defined.

(* ================================================================= *)
(** ** The viewer's list of unique messages *)

Lemma Map_set_fresh {V : Type} (entries : list (jsstring * V)) key v :
  key ∉ entries.*1 -> Map_set entries key v = entries ++ [(key, v)].
Proof.
  induction entries as [|[k' v'] rest IH]; simpl; [done |].
  intros Hk. destruct (decide (k' = key)) as [-> | Hne].
  - destruct Hk. by left.
  - rewrite IH; [done |]. intros Hin. apply Hk. by right.
Qed.

Lemma Map_set_keys_elem {V : Type} (entries : list (jsstring * V)) key v k :
  k ∈ (Map_set entries key v).*1 ↔ k = key ∨ k ∈ entries.*1.
Proof.
  induction entries as [|[k' v'] rest IH]; simpl.
  - rewrite list_elem_of_singleton, elem_of_nil. tauto.
  - destruct (decide (k' = key)) as [-> | Hne]; simpl.
    + rewrite !elem_of_cons. tauto.
    + rewrite !elem_of_cons, IH. tauto.
Qed.

Lemma Map_set_NoDup {V : Type} (entries : list (jsstring * V)) key v :
  NoDup entries.*1 -> NoDup (Map_set entries key v).*1.
Proof.
  induction entries as [|[k' v'] rest IH]; simpl.
  - intros _. apply NoDup_singleton.
  - rewrite NoDup_cons. intros [Hk Hnd].
    destruct (decide (k' = key)) as [-> | Hne]; simpl.
    + by apply NoDup_cons.
    + apply NoDup_cons. split; [| by apply IH].
      rewrite Map_set_keys_elem. intros [-> | Hin]; done.
Qed.

Lemma Map_set_elem {V : Type} (entries : list (jsstring * V)) key v k w :
  NoDup entries.*1 ->
  (k, w) ∈ Map_set entries key v
  ↔ (k = key ∧ w = v) ∨ (k ≠ key ∧ (k, w) ∈ entries).
Proof.
  induction entries as [|[k' v'] rest IH]; simpl.
  - intros _. rewrite list_elem_of_singleton, elem_of_nil. split.
    + intros [= -> ->]. by left.
    + intros [[-> ->] | [_ []]]. done.
  - rewrite NoDup_cons. intros [Hk Hnd].
    destruct (decide (k' = key)) as [-> | Hne].
    + rewrite !elem_of_cons. split.
      * intros [[= -> ->] | Hin]; [by left |].
        right. split; [| by right].
        intros ->. apply Hk. apply list_elem_of_fmap. by exists (key, w).
      * intros [[-> ->] | [Hkk [[= -> ->] | Hin]]]; [by left | done | by right].
    + rewrite !elem_of_cons, IH by done. split.
      * intros [[= -> ->] | [[-> ->] | [Hkk Hin]]].
        -- right. split; [done | by left].
        -- by left.
        -- right. split; [done | by right].
      * intros [[-> ->] | [Hkk [[= -> ->] | Hin]]].
        -- right. by left.
        -- by left.
        -- right. right. by split.
Qed.

(** The entries the viewer's [Map] holds after the messages are put in. *)
Lemma entries_step (msgs : list ClaudeMessage) : forall entries,
  NoDup entries.*1 ->
  let final := foldl (fun entries msg => Map_set entries (uuid msg) msg)
                     entries msgs in
  NoDup final.*1
  ∧ (forall k w, (k, w) ∈ final ->
       ((k, w) ∈ entries ∧ forall m, m ∈ msgs -> uuid m ≠ k)
       ∨ exists j, msgs !! j = Some w ∧ k = uuid w ∧ lastWithUuid msgs j k)
  ∧ (forall k, k ∈ entries.*1 ∨ k ∈ uuid <$> msgs -> k ∈ final.*1).
Proof.
  induction msgs as [|x rest IH]; intros entries Hnd; simpl.
  - split; [done |]. split.
    + intros k w Hin. left. split; [done |]. intros m Hm. by apply elem_of_nil in Hm.
    + intros k [Hk | Hk]; [done | by apply elem_of_nil in Hk].
  - destruct (IH (Map_set entries (uuid x) x) (Map_set_NoDup _ _ _ Hnd))
      as (Hnd' & Helem & Hkeys).
    split; [exact Hnd' |]. split.
    + intros k w Hin. destruct (Helem k w Hin) as [[Hin' Hrest] | (j & Hj & -> & Hlast)].
      * apply Map_set_elem in Hin' as [[-> ->] | [Hne Hin']]; [| | done].
        -- right. exists 0. split; [done |]. split; [done |].
           intros [|j'] m' Hlt Hj'; [lia |]. simpl in Hj'.
           apply Hrest. by eapply list_elem_of_lookup_2.
        -- left. split; [done |]. intros m Hm.
           apply elem_of_cons in Hm as [-> | Hm]; [done | by apply Hrest].
      * right. exists (S j). split; [done |]. split; [done |].
        intros [|j'] m' Hlt Hj'; [lia |]. simpl in Hj'.
        apply (Hlast j' m'); [lia | done].
    + intros k Hk. apply Hkeys. rewrite Map_set_keys_elem.
      destruct Hk as [Hk | Hk]; [left; by right |].
      apply elem_of_cons in Hk as [-> | Hk]; [left; by left | by right].
Qed.

Lemma entries_distinct (msgs : list ClaudeMessage) : forall entries,
  NoDup (entries.*1 ++ (uuid <$> msgs)) ->
  foldl (fun entries msg => Map_set entries (uuid msg) msg) entries msgs
  = entries ++ ((fun m => (uuid m, m)) <$> msgs).
Proof.
  induction msgs as [|x rest IH]; intros entries Hnd; simpl.
  - by rewrite app_nil_r.
  - apply NoDup_app in Hnd as (Hnd & Hdisj & Hrest).
    simpl in Hrest. apply NoDup_cons in Hrest as [Hx Hrest].
    rewrite Map_set_fresh.
    2: { intros Hin. apply (Hdisj _ Hin). by left. }
    rewrite IH.
    + by rewrite <- app_assoc.
    + rewrite fmap_app. simpl. rewrite <- app_assoc. simpl.
      apply NoDup_app. split; [done |]. split.
      * intros k Hk Hk'. apply (Hdisj _ Hk). done.
      * by apply NoDup_cons.
Qed.

Lemma uniqueMessages_last_wins_holds (displayMessages : list ClaudeMessage) :
  NoDup (uuid <$> uniqueMessages displayMessages)
  ∧ (forall m, m ∈ uniqueMessages displayMessages ->
       exists j, displayMessages !! j = Some m
                 ∧ lastWithUuid displayMessages j (uuid m))
  ∧ (forall m, m ∈ displayMessages ->
       uuid m ∈ uuid <$> uniqueMessages displayMessages).
Proof.
  unfold uniqueMessages.
  destruct displayMessages as [|x rest]; simpl length; cbn [Nat.eqb].
  { split; [constructor |]. split; intros m Hm; by apply elem_of_nil in Hm. }
  set (msgs := x :: rest).
  destruct (entries_step msgs [] (NoDup_nil_2)) as (Hnd & Helem & Hkeys).
  set (final := foldl (fun entries msg => Map_set entries (uuid msg) msg) [] msgs)
    in *.
  assert (Hkv : forall k w, (k, w) ∈ final -> k = uuid w).
  { intros k w Hin. destruct (Helem k w Hin) as [[Hin' _] | (j & _ & -> & _)];
      [by apply elem_of_nil in Hin' | done]. }
  assert (Hsame : uuid <$> final.*2 = final.*1).
  { rewrite <- list_fmap_compose. apply list_fmap_ext.
    intros i [k w] Hi. simpl. symmetry. apply Hkv.
    by eapply list_elem_of_lookup_2. }
  split; [by rewrite Hsame |]. split.
  - intros m Hm. apply list_elem_of_fmap in Hm as ([k w] & -> & Hin). simpl.
    destruct (Helem k w Hin) as [[Hin' _] | (j & Hj & -> & Hlast)];
      [by apply elem_of_nil in Hin' |].
    by exists j.
  - intros m Hm. rewrite Hsame. apply Hkeys. right.
    apply list_elem_of_fmap. by exists m.
Qed.

(** X23: [uniqueMessages] has each uuid of the displayed messages once; the
    message it keeps for a uuid is the last displayed one carrying it. *)
Theorem uniqueMessages_last_wins (displayMessages : list ClaudeMessage) :
  NoDup (uuid <$> uniqueMessages displayMessages)
  ∧ (forall m, m ∈ uniqueMessages displayMessages ->
       exists j, displayMessages !! j = Some m
                 ∧ lastWithUuid displayMessages j (uuid m))
  ∧ (forall m, m ∈ displayMessages ->
       uuid m ∈ uuid <$> uniqueMessages displayMessages).
Proof. apply uniqueMessages_last_wins_holds. Qed.

(** X24: When the displayed messages have pairwise distinct uuids,
    [uniqueMessages] is the displayed list itself, in the same order. *)
Theorem uniqueMessages_distinct (displayMessages : list ClaudeMessage) :
  NoDup (uuid <$> displayMessages) ->
  uniqueMessages displayMessages = displayMessages.
Proof.
  intros Hnd. unfold uniqueMessages.
  destruct displayMessages as [|x rest]; [done |].
  simpl length. cbn [Nat.eqb].
  rewrite entries_distinct by done. simpl.
  rewrite <- list_fmap_compose. f_equal. apply list_fmap_id.
Qed.

Lemma uniqueMessages_distinct_witness :
  uniqueMessages helloSnapshot = helloSnapshot.
Proof.
  apply (uniqueMessages_distinct helloSnapshot).
  apply (bool_decide_unpack (NoDup (uuid <$> helloSnapshot))).
  vm_compute. exact I.
Defined.

(** A uuid that comes twice keeps its first place and its last message. *)
Example uniqueMessages_repeated :
  uniqueMessages repeatedSnapshot
  = [ textMessage "a" "second"; textMessage "b" "other" ].
Proof. vm_compute. reflexivity. Qed.

(** A unique message is a displayed message. *)
Lemma uniqueMessages_elem (displayMessages : list ClaudeMessage) m :
  m ∈ uniqueMessages displayMessages -> m ∈ displayMessages.
Proof.
  unfold uniqueMessages.
  destruct displayMessages as [|x rest]; simpl length; cbn [Nat.eqb]; [done |].
  set (msgs := x :: rest).
  destruct (entries_step msgs [] (NoDup_nil_2)) as (_ & Helem & _).
  intros Hm. apply list_elem_of_fmap in Hm as ([k w] & -> & Hin). simpl.
  destruct (Helem k w Hin) as [[Hin' _] | (j & Hj & _)];
    [by apply elem_of_nil in Hin' | by eapply list_elem_of_lookup_2].
Qed.

(* ================================================================= *)
(** ** The viewer's message tree *)

Lemma size_list_to_set_le (l : list jsstring) :
  size (list_to_set l : gset jsstring) <= length l.
Proof.
  induction l as [|x l IH]; simpl.
  - pose proof (size_empty (C := gset jsstring)) as He.
    change (size (∅ : gset jsstring) <= 0). lia.
  - rewrite size_union_alt, size_singleton.
    assert (size (list_to_set l ∖ {[x]} : gset jsstring)
            <= size (list_to_set l : gset jsstring))
      by (apply subseteq_size; set_solver).
    lia.
Qed.

Lemma elem_of_concat_trees {A : Type} (x : A) (ls : list (list A)) :
  x ∈ concat ls ↔ exists l, l ∈ ls ∧ x ∈ l.
Proof.
  rewrite list_elem_of_In, in_concat. split.
  - intros (l & Hl & Hx). exists l. by rewrite !list_elem_of_In.
  - intros (l & Hl & Hx). exists l. by rewrite <- !list_elem_of_In.
Qed.

Lemma elem_of_List_filter {A : Type} (p : A -> bool) (l : list A) (x : A) :
  x ∈ List.filter p l ↔ x ∈ l ∧ p x = true.
Proof. by rewrite !list_elem_of_In, filter_In. Qed.

Section MessageTreeProperties.
Context (parentUuid parent_uuid : ClaudeMessage -> option jsstring).

#[local] Abbreviation render := (renderMessageTree parentUuid parent_uuid).
#[local] Abbreviation parentOf := (getParentUuid parentUuid parent_uuid).

(** A call on a displayed message returns once the fuel exceeds the number
    of displayed uuids not yet visited: every nested call adds one. *)
Lemma renderMessageTree_returns displayMessages sessionSearch : forall fuel message depth visitedIds,
  message ∈ displayMessages ->
  size ((list_to_set (uuid <$> displayMessages) : gset jsstring) ∖ visitedIds) < fuel ->
  is_Some (render fuel displayMessages sessionSearch message depth visitedIds).
Proof.
  induction fuel as [|fuel IH]; intros message depth visitedIds Hin Hfuel; [lia |].
  simpl. destruct (decide (uuid message ∈ visitedIds)); [done |].
  set (children := List.filter _ displayMessages).
  assert (Hkids : is_Some
            (mapM (fun child =>
                     render fuel displayMessages sessionSearch child (S depth)
                            ({[uuid message]} ∪ visitedIds)) children)).
  { apply mapM_is_Some_2, Forall_forall. intros child Hchild. simpl.
    apply elem_of_List_filter in Hchild as [Hchild _].
    apply IH; [done |].
    assert (Hu : uuid message ∈ (list_to_set (uuid <$> displayMessages) : gset jsstring))
      by (apply elem_of_list_to_set, list_elem_of_fmap; by exists message).
    assert (Hlt : size ((list_to_set (uuid <$> displayMessages) : gset jsstring)
                        ∖ ({[uuid message]} ∪ visitedIds))
                  < size ((list_to_set (uuid <$> displayMessages) : gset jsstring)
                          ∖ visitedIds)).
    { apply subset_size. set_solver. }
    lia. }
  destruct Hkids as [childNodes ->]. done.
Qed.

(** A rendered node is the message of the call at its depth, or a
    displayed message one level below another rendered node whose uuid is
    its parent uuid. *)
Lemma renderMessageTree_ancestry displayMessages sessionSearch : forall fuel message depth visitedIds nodes,
  render fuel displayMessages sessionSearch message depth visitedIds = Some nodes ->
  forall node, node ∈ nodes ->
    (propMessage node = message ∧ propDepth node = depth)
    ∨ (propMessage node ∈ displayMessages
       ∧ exists parent,
           parent ∈ nodes
           ∧ parentOf (propMessage node) = Some (uuid (propMessage parent))
           ∧ propDepth node = S (propDepth parent)).
Proof.
  induction fuel as [|fuel IH]; intros message depth visitedIds nodes; [done |].
  simpl. destruct (decide (uuid message ∈ visitedIds)).
  { intros [= <-] node Hnode. by apply elem_of_nil in Hnode. }
  set (children := List.filter _ displayMessages).
  destruct (mapM _ children) as [childNodes|] eqn:Hkids; [| done].
  simpl. intros [= <-] node Hnode.
  apply elem_of_cons in Hnode as [-> | Hnode]; [by left |].
  right. apply elem_of_concat_trees in Hnode as (tree & Htree & Hnode).
  apply mapM_Some_1 in Hkids.
  apply list_elem_of_lookup in Htree as [i Hi].
  destruct (Forall2_lookup_r _ _ _ _ _ Hkids Hi) as (child & Hchild & Hrun).
  apply list_elem_of_lookup_2 in Hchild.
  apply elem_of_List_filter in Hchild as [Hchild Hparent].
  apply bool_decide_eq_true in Hparent.
  assert (Hsub : forall nd, nd ∈ tree ->
            nd ∈ nodeProps sessionSearch message depth :: concat childNodes).
  { intros nd Hn. right. apply elem_of_concat_trees. exists tree. split; [| done].
    by eapply list_elem_of_lookup_2. }
  destruct (IH _ _ _ _ Hrun node Hnode) as [[Hm Hd] | (Hdm & parent & Hp & Hpu & Hpd)].
  - split; [by rewrite Hm |].
    exists (nodeProps sessionSearch message depth).
    split; [by left |]. simpl. by rewrite Hm, Hd.
  - split; [done |]. exists parent. split; [by apply Hsub | done].
Qed.

(** X25: Rendering the messages always comes to an end, whatever the parent
    uuids say: a cycle among them is cut by the visited set, and the
    nesting never exceeds the number of displayed messages. *)
Theorem renderMessages_returns (displayMessages : list ClaudeMessage)
    (sessionSearch : SearchState) :
  exists nodes,
    renderMessages parentUuid parent_uuid displayMessages sessionSearch
    = Some nodes.
Proof.
  unfold renderMessages.
  destruct (length displayMessages =? 0)%nat; [eauto |].
  destruct (0 <? length _)%nat; [| eauto].
  assert (Htrees : is_Some
            (mapM (fun message =>
                     render (S (length displayMessages)) displayMessages
                            sessionSearch message 0 ∅)
                  (rootMessages parentUuid parent_uuid displayMessages))).
  { apply mapM_is_Some_2, Forall_forall. intros root Hroot. unfold compose.
    apply elem_of_List_filter in Hroot as [Hroot _].
    apply renderMessageTree_returns.
    - by apply uniqueMessages_elem.
    - pose proof (size_list_to_set_le (uuid <$> displayMessages)) as Hle.
      rewrite length_fmap in Hle.
      assert (size ((list_to_set (uuid <$> displayMessages) : gset jsstring) ∖ ∅)
              <= size (list_to_set (uuid <$> displayMessages) : gset jsstring))
        by (apply subseteq_size; set_solver).
      lia. }
  destruct Htrees as [trees ->]. simpl. eauto.
Qed.
End MessageTreeProperties.

Section MessageTreeView.
Context (parentUuid parent_uuid : ClaudeMessage -> option jsstring).

#[local] Abbreviation renderTree := (renderMessageTree parentUuid parent_uuid).
#[local] Abbreviation parentIn := (getParentUuid parentUuid parent_uuid).

Lemma renderMessageTree_head fuel displayMessages sessionSearch message depth tree :
  renderTree fuel displayMessages sessionSearch message depth ∅ = Some tree ->
  nodeProps sessionSearch message depth ∈ tree.
Proof.
  destruct fuel as [|fuel]; [done |]. simpl.
  destruct (decide (uuid message ∈ (∅ : gset jsstring))) as [Hin | _];
    [by apply not_elem_of_empty in Hin |].
  destruct (mapM _ _) as [childNodes|]; [| done].
  simpl. intros [= <-]. by left.
Qed.

(** X26: With at least one root, the viewer renders each root at depth [0] and
    below it the displayed messages that name a rendered message as their
    parent, one level deeper. A message that has a parent uuid which no
    displayed message carries is not rendered at all. *)
Theorem renderMessages_tree (displayMessages : list ClaudeMessage)
    (sessionSearch : SearchState) (nodes : list MessageNodeProps) :
  renderMessages parentUuid parent_uuid displayMessages sessionSearch = Some nodes ->
  rootMessages parentUuid parent_uuid displayMessages ≠ [] ->
  (forall root, root ∈ rootMessages parentUuid parent_uuid displayMessages ->
     nodeProps sessionSearch root 0 ∈ nodes)
  ∧ (forall node, node ∈ nodes ->
       propMessage node ∈ displayMessages
       ∧ ((noParent (parentIn (propMessage node)) = true ∧ propDepth node = 0)
          ∨ exists parent,
              parent ∈ nodes
              ∧ parentIn (propMessage node) = Some (uuid (propMessage parent))
              ∧ propDepth node = S (propDepth parent)))
  ∧ (forall m,
       noParent (parentIn m) = false ->
       (forall m', m' ∈ displayMessages -> parentIn m ≠ Some (uuid m')) ->
       forall node, node ∈ nodes -> propMessage node ≠ m).
Proof.
  intros Hrun Hroots. unfold renderMessages in Hrun.
  destruct (length displayMessages =? 0)%nat eqn:Elen.
  { apply Nat.eqb_eq, nil_length_inv in Elen. subst displayMessages.
    by destruct Hroots. }
  destruct (0 <? length _)%nat eqn:Eroots.
  2: { destruct (rootMessages parentUuid parent_uuid displayMessages);
         [done | discriminate]. }
  destruct (mapM _ _) as [trees|] eqn:Htrees; [| done].
  simpl in Hrun. injection Hrun as <-. apply mapM_Some_1 in Htrees.
  assert (Hroot_in : forall root,
            root ∈ rootMessages parentUuid parent_uuid displayMessages ->
            root ∈ displayMessages ∧ noParent (parentIn root) = true).
  { intros root Hroot. apply elem_of_List_filter in Hroot as [Hroot Hp].
    split; [| done]. by apply uniqueMessages_elem. }
  assert (Hnodes : forall node, node ∈ concat trees ->
            propMessage node ∈ displayMessages
            ∧ ((noParent (parentIn (propMessage node)) = true ∧ propDepth node = 0)
               ∨ exists parent,
                   parent ∈ concat trees
                   ∧ parentIn (propMessage node) = Some (uuid (propMessage parent))
                   ∧ propDepth node = S (propDepth parent))).
  { intros node Hnode.
    apply elem_of_concat_trees in Hnode as (tree & Htree & Hnode).
    apply list_elem_of_lookup in Htree as [i Hi].
    destruct (Forall2_lookup_r _ _ _ _ _ Htrees Hi) as (root & Hroot & Hrun).
    apply list_elem_of_lookup_2 in Hroot, Hi.
    destruct (Hroot_in root Hroot) as [Hdm Hnp].
    destruct (renderMessageTree_ancestry _ _ _ _ _ _ _ _ _ Hrun node Hnode)
      as [[Hm Hd] | (Hin & parent & Hp & Hpu & Hpd)].
    - rewrite Hm. split; [done |]. left. by split.
    - split; [done |]. right. exists parent. split; [| done].
      apply elem_of_concat_trees. by exists tree. }
  split; [| split; [exact Hnodes |]].
  - intros root Hroot.
    apply list_elem_of_lookup in Hroot as [i Hi].
    destruct (Forall2_lookup_l _ _ _ _ _ Htrees Hi) as (tree & Htree & Hrun).
    apply renderMessageTree_head in Hrun.
    apply elem_of_concat_trees. exists tree. split; [| done].
    by eapply list_elem_of_lookup_2.
  - intros m Hm Horphan node Hnode Heq.
    destruct (Hnodes node Hnode) as [_ [[Hroot _] | (parent & Hp & Hpu & _)]].
    + rewrite Heq in Hroot. congruence.
    + destruct (Hnodes parent Hp) as [Hpm _].
      rewrite Heq in Hpu. by apply (Horphan _ Hpm).
Qed.
End MessageTreeView.

(** X27: The node of a message is marked as the current match only if the
    message is among the matches and the match under the cursor belongs to
    it; the occurrence number handed down is that of this match. *)
Theorem nodeProps_current (sessionSearch : SearchState) (message : ClaudeMessage)
    (depth : nat) :
  propIsCurrentMatch (nodeProps sessionSearch message depth) = true ->
  propIsMatch (nodeProps sessionSearch message depth) = true
  ∧ exists x,
      at_index (matches sessionSearch) (currentMatchIndex sessionSearch) = Some x
      ∧ messageUuid x = uuid message
      ∧ propCurrentMatchIndex (nodeProps sessionSearch message depth)
        = Some (matchIndex x).
Proof.
  unfold nodeProps. cbn [propIsCurrentMatch propIsMatch propCurrentMatchIndex].
  unfold currentMatch.
  destruct ((0 <=? currentMatchIndex sessionSearch)%Z
            && (0 <? Z.of_nat (length (matches sessionSearch)))%Z); [| done].
  destruct (at_index (matches sessionSearch) (currentMatchIndex sessionSearch))
    as [x|] eqn:Hx; [| done].
  intros Hcur. rewrite Hcur. apply bool_decide_eq_true in Hcur.
  split.
  - apply bool_decide_eq_true. rewrite <- Hcur.
    apply list_elem_of_fmap. exists x. split; [done |].
    unfold at_index in Hx. destruct (currentMatchIndex sessionSearch <? 0)%Z; [done |].
    by eapply list_elem_of_lookup_2.
  - by exists x.
Qed.

(* ================================================================= *)
(** ** The further properties at concrete inputs *)

Lemma echo_search :
  search (H := asciiHost) echoIndex (js "hello") Content = Returns echoMatches.
Proof. vm_compute. reflexivity. Qed.

Lemma echoSecond_found : echoSecond ∈ echoMatches.
Proof. apply list_elem_of_lookup. by exists 1. Qed.

Lemma search_matches_resolve_witness :
  matchResolves (H := asciiHost) echoIndex
    (@toLowerCase asciiHost (js "hello")) Content echoSecond.
Proof.
  exact (search_matches_resolve (H := asciiHost) echoIndex (js "hello") Content
           echoMatches echoSecond echo_search echoSecond_found).
Defined.

Lemma search_matches_complete_witness :
  (forall k, (0 <= k < 2)%Z -> withMatchIndex echoSecond k ∈ echoMatches)
  ∧ Z.of_nat (length (filter (fun y => messageUuid y = js "m0") echoMatches)) = 2%Z
  ∧ NoDup echoMatches.
Proof.
  exact (search_matches_complete (H := asciiHost) echoIndex (js "hello") Content
           echoMatches echoSecond echo_search echoSecond_found).
Defined.

Lemma search_matches_occur_witness :
  exists i m p,
    messageIndex echoSecond = Z.of_nat i
    ∧ messages echoIndex !! i = Some m
    ∧ occursAt (@toLowerCase asciiHost (fieldText Content m))
        (@toLowerCase asciiHost (@toLowerCase asciiHost (js "hello"))) p.
Proof.
  exact (search_matches_occur (H := asciiHost) echoIndex (js "hello") Content
           echoMatches echoSecond echo_search echoSecond_found).
Defined.

Lemma tool_search :
  search (H := asciiHost) toolIndex (js "tu_42") ToolId = Returns [toolMatch].
Proof. vm_compute. reflexivity. Qed.

Lemma search_skips_empty_field_witness :
  exists i m,
    messageIndex toolMatch = Z.of_nat i
    ∧ messages toolIndex !! i = Some m
    ∧ fieldText ToolId m ≠ []
    ∧ (ToolId = ToolId -> toolIdTexts m ≠ []).
Proof.
  apply (search_skips_empty_field (H := asciiHost) toolIndex (js "tu_42") ToolId
           [toolMatch] toolMatch tool_search).
  by left.
Defined.

Lemma search_built_in_snapshot_witness :
  exists i m,
    messageIndex echoSecond = Z.of_nat i ∧ echoSnapshot !! i = Some m
    ∧ uuid m = messageUuid echoSecond.
Proof.
  exact (search_built_in_snapshot (H := asciiHost) newMessageSearchIndex
           echoSnapshot (js "hello") Content echoMatches echoSecond
           echo_search echoSecond_found).
Defined.

Lemma findAllMatchesInText_diverges_iff_witness :
  (exists n, findAllMatchesInText (H := asciiHost) (js "aaaa") (js "aa") = Returns n)
  ∧ findAllMatchesInText (H := asciiHost) (js "aaaa") (js "aa") ≠ Throws
  ∧ findAllMatchesInText (H := asciiHost) (js "aaaa") [] = Diverges.
Proof.
  destruct (findAllMatchesInText_diverges_iff (H := asciiHost) (js "aaaa") (js "aa"))
    as (_ & _ & Hreturns & Hthrows).
  split; [apply Hreturns; discriminate |]. split; [exact Hthrows |].
  destruct (findAllMatchesInText_diverges_iff (H := asciiHost) (js "aaaa") [])
    as (_ & Hiff & _).
  apply Hiff. reflexivity.
Defined.

Lemma hello_query :
  setSessionSearchQuery (H := asciiHost) helloIndex helloStore (js "hello")
  = Returns helloFound.
Proof. vm_compute. reflexivity. Qed.

Lemma hello_search :
  search (H := asciiHost) helloIndex (js "hello") Content = Returns helloMatches.
Proof. vm_compute. reflexivity. Qed.

Lemma setSessionSearchQuery_keeps_all_witness :
  matches (sessionSearch helloFound) = helloMatches.
Proof.
  exact (setSessionSearchQuery_keeps_all (H := asciiHost) newMessageSearchIndex
           helloStore helloFound (js "hello") helloMatches
           eq_refl hello_search hello_query).
Defined.

Lemma setSessionSearchQuery_results_witness :
  length (results (sessionSearch helloFound))
  = length (matches (sessionSearch helloFound))
  ∧ forall i x,
      matches (sessionSearch helloFound) !! i = Some x ->
      exists m,
        results (sessionSearch helloFound) !! i = Some m
        ∧ storeMessages helloStore !! Z.to_nat (messageIndex x) = Some m.
Proof.
  exact (setSessionSearchQuery_results (H := asciiHost) helloIndex helloStore
           helloFound (js "hello") eq_refl hello_query).
Defined.

Lemma setSessionSearchQuery_blank_witness :
  setSessionSearchQuery (H := throwingHost) helloIndex helloFound (js "  ")
  = Returns (clearSessionSearch helloFound).
Proof.
  exact (setSessionSearchQuery_blank (H := throwingHost) helloIndex helloFound
           (js "  ") eq_refl).
Defined.

Lemma selectSession_unloaded_query_witness :
  search (H := throwingHost)
    (messageSearchIndex (selectSessionStart helloWorld)) (js "hello") Content
  = Returns []
  ∧ setSessionSearchQuery (H := throwingHost)
      (messageSearchIndex (selectSessionStart helloWorld))
      (store (selectSessionStart helloWorld)) (js "hello")
    = setSessionSearchQuery (H := asciiHost)
        (messageSearchIndex (selectSessionStart helloWorld))
        (store (selectSessionStart helloWorld)) (js "hello")
  ∧ exists state',
      setSessionSearchQuery (H := throwingHost)
        (messageSearchIndex (selectSessionStart helloWorld))
        (store (selectSessionStart helloWorld)) (js "hello")
      = Returns state'
      ∧ storeMessages state' = []
      ∧ query (sessionSearch state') = js "hello"
      ∧ matches (sessionSearch state') = []
      ∧ currentMatchIndex (sessionSearch state') = (-1)%Z
      ∧ isSearching (sessionSearch state') = false
      ∧ filterType (sessionSearch state') = Content.
Proof.
  destruct (selectSession_unloaded_query (H := throwingHost) asciiHost true
              helloWorld (store (selectSessionStart helloWorld)) (js "hello")
              Content eq_refl)
    as (_ & _ & _ & Hsearch & Hsame & Hleft).
  split; [exact Hsearch |]. split; [exact Hsame | exact Hleft].
Defined.

Lemma typed_while_loading :
  setSessionSearchQuery (H := asciiHost)
    (messageSearchIndex (selectSessionStart helloWorld))
    (store (selectSessionStart helloWorld)) (js "hello")
  = Returns (store typedWhileLoading)
  ∧ messageSearchIndex (selectSessionStart helloWorld)
    = messageSearchIndex typedWhileLoading.
Proof. split; vm_compute; reflexivity. Qed.

Lemma loaded_search :
  search (H := asciiHost)
    (messageSearchIndex
       (selectSessionSettled (H := asciiHost) true (Some loadedMessages)
          typedWhileLoading))
    (js "hello") Content
  = Returns helloMatches.
Proof. vm_compute. reflexivity. Qed.

Lemma loaded_query :
  setSessionSearchQuery (H := asciiHost)
    (messageSearchIndex
       (selectSessionSettled (H := asciiHost) true (Some loadedMessages)
          typedWhileLoading))
    (store
       (selectSessionSettled (H := asciiHost) true (Some loadedMessages)
          typedWhileLoading))
    (js "hello")
  = Returns helloFound.
Proof. vm_compute. reflexivity. Qed.

Lemma selectSession_loaded_query_witness :
  storeMessages
    (store (selectSessionSettled (H := asciiHost) true (Some loadedMessages)
              typedWhileLoading))
  = helloSnapshot
  ∧ sessionSearch
      (store (selectSessionSettled (H := asciiHost) true (Some loadedMessages)
                typedWhileLoading))
    = sessionSearch (store typedWhileLoading)
  ∧ isIdle
      (sessionSearch
         (store (selectSessionSettled (H := asciiHost) true (Some loadedMessages)
                   (selectSessionStart helloWorld))))
      Content
  ∧ matches (sessionSearch helloFound) = helloMatches.
Proof.
  destruct (selectSession_loaded_query (H := asciiHost) true loadedMessages
              typedWhileLoading (js "hello") helloMatches helloFound)
    as (Hstore & _ & _ & Hkept & _ & Hkeep).
  split; [exact Hstore |]. split; [exact Hkept |]. split.
  - destruct (selectSession_loaded_query (H := asciiHost) true loadedMessages
                (selectSessionStart helloWorld) (js "hello") helloMatches
                helloFound)
      as (_ & _ & _ & _ & Hidle & _).
    exact (Hidle helloWorld eq_refl).
  - exact (Hkeep eq_refl loaded_search loaded_query).
Defined.

Lemma helloFound_reachable : reachable (H := asciiHost) helloFound.
Proof.
  apply (reachable_run (H := asciiHost) helloStore helloIndex
           (SetQuery (js "hello"))); [| exact hello_query].
  exact (reachable_load (H := asciiHost) _ helloSnapshot
           (reachable_init (H := asciiHost))).
Qed.

Lemma helloNext_reachable : reachable (H := asciiHost) (goToNextMatch helloFound).
Proof.
  apply (reachable_run (H := asciiHost) helloFound helloIndex Next);
    [| reflexivity].
  apply (reachable_run (H := asciiHost) helloStore helloIndex
           (SetQuery (js "hello"))); [| exact hello_query].
  exact (reachable_load (H := asciiHost) _ helloSnapshot
           (reachable_init (H := asciiHost))).
Qed.

Lemma reachable_cursorTight_witness :
  (matches (sessionSearch (goToNextMatch helloFound)) = []
   ↔ cursorOf (goToNextMatch helloFound) = (-1)%Z)
  ∧ (matches (sessionSearch (goToNextMatch helloFound)) ≠ [] ->
     (1 <= cursorOf (goToNextMatch helloFound) + 1
      <= totalOf (goToNextMatch helloFound))%Z)
  ∧ cursorTightNumber
      (goToMatchIndexNumber (goToNextMatch helloFound) (Fractional 2))
  ∧ ¬ cursorTightNumber
        (goToMatchIndexNumber (goToNextMatch helloFound) (Fractional 1))
  ∧ numberCurrentMatchIndex
      (goToMatchIndexNumber (goToNextMatch helloFound) (Fractional 1))
    = Fractional 1.
Proof.
  destruct (reachable_cursorTight (H := asciiHost) (goToNextMatch helloFound)
              helloNext_reachable) as (Hempty & Hcounter & Hjump).
  assert (Hslip : slipsThrough (Fractional 1) (totalOf (goToNextMatch helloFound))).
  { right. exists 1%Z. split; [reflexivity |]. vm_compute. by split. }
  split; [exact Hempty |]. split; [exact Hcounter |]. split.
  - apply (proj1 (Hjump (Fractional 2))).
    intros [Hn | (below & Hb & Hrange)]; [discriminate |].
    injection Hb as <-. vm_compute in Hrange. by destruct Hrange as [_ Hlt].
  - split.
    + intros Htight. exact (proj1 (proj1 (Hjump (Fractional 1))) Htight Hslip).
    + exact (proj2 (Hjump (Fractional 1)) Hslip).
Defined.

Lemma reachable_matches_ordered_witness :
  orderedMatches (matches (sessionSearch (goToNextMatch helloFound))).
Proof.
  exact (reachable_matches_ordered (H := asciiHost) (goToNextMatch helloFound)
           helloNext_reachable).
Defined.

Lemma reachable_currentMatch_witness :
  (exists x,
     matches (sessionSearch (goToNextMatch helloFound))
       !! Z.to_nat (cursorOf (goToNextMatch helloFound)) = Some x
     ∧ currentMatch (sessionSearch (goToNextMatch helloFound))
       = Some (messageUuid x, matchIndex x))
  ∧ currentMatchNumber
      (goToMatchIndexNumber (goToNextMatch helloFound) (Fractional 1))
    = None.
Proof.
  destruct (reachable_currentMatch (H := asciiHost) (goToNextMatch helloFound)
              helloNext_reachable) as (_ & Hsome & Hjump).
  split; [apply Hsome; discriminate |].
  apply (proj2 (Hjump (Fractional 1))). right. right.
  exists 1%Z. split; [reflexivity |]. vm_compute. by split.
Defined.

Lemma goToMatchIndexNumber_cursorValid_witness :
  cursorValidNumber (goToMatchIndexNumber helloFound (Infinity false))
  ∧ cursorValidNumber (goToMatchIndexNumber helloFound (Fractional (-1)))
  ∧ cursorValidNumber (goToMatchIndexNumber helloFound (Integer 1)).
Proof.
  assert (Hall : forall index,
            ¬ slipsThrough index (totalOf helloFound) ->
            cursorValidNumber (goToMatchIndexNumber helloFound index)).
  { intros index.
    exact (proj2 (proj1 (goToMatchIndexNumber_cursorValid (H := asciiHost)
                           helloFound index helloFound_reachable))). }
  split; [| split]; apply Hall;
    intros [Hn | (below & Hb & Hrange)]; try discriminate.
  injection Hb as <-. vm_compute in Hrange. by destruct Hrange as [Hle _].
Defined.

Lemma uniqueMessages_last_wins_witness :
  exists j, repeatedSnapshot !! j = Some (textMessage "a" "second")
            ∧ lastWithUuid repeatedSnapshot j (js "a").
Proof.
  apply (proj1 (proj2 (uniqueMessages_last_wins repeatedSnapshot))
           (textMessage "a" "second")).
  apply list_elem_of_lookup. by exists 0.
Defined.

Lemma thread_rendered :
  renderMessages threadParent (fun _ => None) threadSnapshot initialSessionSearch
  = Some threadNodes.
Proof. vm_compute. reflexivity. Qed.

Lemma renderMessages_tree_witness :
  Forall (fun node => propMessage node ≠ textMessage "o" "orphan") threadNodes.
Proof.
  apply Forall_forall.
  apply (proj2 (proj2 (renderMessages_tree threadParent (fun _ => None)
                         threadSnapshot initialSessionSearch threadNodes
                         thread_rendered ltac:(discriminate)))).
  - reflexivity.
  - apply Forall_forall.
    apply (bool_decide_unpack
             (Forall (fun m' =>
                        getParentUuid threadParent (fun _ => None)
                          (textMessage "o" "orphan") ≠ Some (uuid m'))
                     threadSnapshot)).
    vm_compute. exact I.
Defined.

Lemma nodeProps_current_witness :
  propIsMatch (nodeProps (sessionSearch helloFound) (textMessage "m1" "say hello") 0)
  = true
  ∧ exists x,
      at_index (matches (sessionSearch helloFound))
               (currentMatchIndex (sessionSearch helloFound)) = Some x
      ∧ messageUuid x = js "m1"
      ∧ propCurrentMatchIndex
          (nodeProps (sessionSearch helloFound) (textMessage "m1" "say hello") 0)
        = Some (matchIndex x).
Proof.
  exact (nodeProps_current (sessionSearch helloFound)
           (textMessage "m1" "say hello") 0 eq_refl).
Defined.

(* ================================================================= *)
(** ** The cursor after [goToMatchIndex] with a number that is no index *)

(** C8: the invariant does not hold of the code. [goToMatchIndex] takes any
    number, and its bounds test [index < 0 || index >= matches.length] is
    false for NaN and for a number between two indices such as 1.5, so
    the call stores them. On the initial store [goToMatchIndex(NaN)]
    leaves the cursor NaN. On the store reached by loading the scenario's
    snapshot and [setSessionSearchQuery("hello")], which has two matches,
    [goToMatchIndex(1.5)] leaves the cursor 1.5 and [goToMatchIndex(NaN)]
    leaves it NaN. None of these cursors is [-1] or an index into
    [matches]; on the integers the same call agrees with the validated
    jump, which keeps the invariant. *)
Theorem goToMatchIndex_stores_non_index :
  reachable (H := asciiHost) initialStore
  ∧ numberCurrentMatchIndex (goToMatchIndexNumber initialStore NaN) = NaN
  ∧ ¬ cursorValidNumber (goToMatchIndexNumber initialStore NaN)
  ∧ reachable (H := asciiHost) helloFound
  ∧ length (matches (sessionSearch helloFound)) = 2
  ∧ number_lt (Fractional 1) 0 || number_ge (Fractional 1) 2 = false
  ∧ numberCurrentMatchIndex (goToMatchIndexNumber helloFound (Fractional 1))
    = Fractional 1
  ∧ ¬ cursorValidNumber (goToMatchIndexNumber helloFound (Fractional 1))
  ∧ number_lt NaN 0 || number_ge NaN 2 = false
  ∧ numberCurrentMatchIndex (goToMatchIndexNumber helloFound NaN) = NaN
  ∧ ¬ cursorValidNumber (goToMatchIndexNumber helloFound NaN)
  ∧ (forall state i,
       goToMatchIndexNumber state (Integer i)
       = asNumberState (sessionSearch (goToMatchIndex state i))).
Proof.
  assert (Hno : forall state index,
            (forall i, index ≠ Integer i) ->
            numberCurrentMatchIndex (goToMatchIndexNumber state index) = index ->
            ¬ cursorValidNumber (goToMatchIndexNumber state index)).
  { intros state index Hindex Hcur [Hc | (i & Hc & _)];
      rewrite Hcur in Hc; by apply Hindex in Hc. }
  split; [exact (reachable_init (H := asciiHost)) |].
  split; [reflexivity |].
  split; [by apply Hno |].
  split; [exact helloFound_reachable |].
  split; [reflexivity |].
  split; [reflexivity |].
  split; [reflexivity |].
  split; [by apply Hno |].
  split; [reflexivity |].
  split; [reflexivity |].
  split; [by apply Hno |].
  apply goToMatchIndexNumber_Integer.
Qed.
